(** * DigitalDairy-PDF: page graph, holiday calendar, text layout, credentials

    A shallow embedding of the diary generator ([enhanced_diary.py]) and of
    the password front end ([PasswordManager.py]), with the properties of
    the page/link graph, the holiday table, the quote rotation, the word
    wrapping and the credential acquisition.

    Python [int] is [Z]; [str] is [string], whose characters are read as
    the code points 0..255; a [dict] is a [gmap], a [set] a [gset]; an
    exception is an explicit error result. *)

From Stdlib Require Import ZArith QArith Ascii String DecimalString DecimalZ.
From stdpp Require Import base decidable option numbers list strings gmap.
From Equations Require Import Equations.

Local Open Scope string_scope.
Local Open Scope Z_scope.
Local Open Scope list_scope.

Set Warnings "-clear-no-such-hyp".

(** ** The platform: [datetime.date] and [calendar] *)

Module Datetime.

Definition MINYEAR : Z := 1.
Definition MAXYEAR : Z := 9999.

(** [_is_leap] / [calendar.isleap] *)
Definition is_leap (year : Z) : bool :=
  (year `mod` 4 =? 0) && (negb (year `mod` 100 =? 0) || (year `mod` 400 =? 0)).

(** [_days_before_year]: number of days before January 1st of [year]. *)
Definition days_before_year (year : Z) : Z :=
  let y := year - 1 in y * 365 + y `div` 4 - y `div` 100 + y `div` 400.

(** The table [_DAYS_IN_MONTH], indexed from 1. *)
Definition DAYS_IN_MONTH (month : Z) : Z :=
  match month with
  | 1 => 31 | 2 => 28 | 3 => 31 | 4 => 30 | 5 => 31 | 6 => 30
  | 7 => 31 | 8 => 31 | 9 => 30 | 10 => 31 | 11 => 30 | 12 => 31
  | _ => -1
  end.

(** The table [_DAYS_BEFORE_MONTH], indexed from 1. *)
Definition DAYS_BEFORE_MONTH (month : Z) : Z :=
  match month with
  | 1 => 0 | 2 => 31 | 3 => 59 | 4 => 90 | 5 => 120 | 6 => 151
  | 7 => 181 | 8 => 212 | 9 => 243 | 10 => 273 | 11 => 304 | 12 => 334
  | _ => -1
  end.

Definition days_in_month (year month : Z) : Z :=
  if (month =? 2) && is_leap year then 29 else DAYS_IN_MONTH month.

Definition days_before_month (year month : Z) : Z :=
  DAYS_BEFORE_MONTH month + (if (2 <? month) && is_leap year then 1 else 0).

Definition ymd2ord (year month day : Z) : Z :=
  days_before_year year + days_before_month year month + day.

Record date : Type := Date { dyear : Z; dmonth : Z; dday : Z }.

(** [_check_date_fields]: what [date(y, m, d)] accepts. *)
Definition check_date_fields (year month day : Z) : bool :=
  (MINYEAR <=? year) && (year <=? MAXYEAR)
  && (1 <=? month) && (month <=? 12)
  && (1 <=? day) && (day <=? days_in_month year month).

(** [date(year, month, day)]; [None] stands for the exception that [date]
    raises on a field out of range: [ValueError], or [OverflowError] for an
    integer beyond the C int range. *)
Definition date_of (year month day : Z) : option date :=
  if check_date_fields year month day then Some (Date year month day) else None.

(** [d.replace(day=...)] *)
Definition replace_day (d : date) (day : Z) : option date :=
  date_of (dyear d) (dmonth d) day.

Definition toordinal (d : date) : Z := ymd2ord (dyear d) (dmonth d) (dday d).

(** [d.weekday()]: Monday is 0, Sunday is 6. *)
Definition weekday (d : date) : Z := (toordinal d + 6) `mod` 7.

End Datetime.
Export Datetime.

Global Instance date_eq_dec : EqDecision date.
Proof. solve_decision. Defined.

Global Instance date_countable : Countable date.
Proof.
  refine (inj_countable' (λ d, (dyear d, dmonth d, dday d))
                         (λ t, Date t.1.1 t.1.2 t.2) _).
  by intros [].
Defined.

Module Calendar.

Definition isleap (year : Z) : bool :=
  (year `mod` 4 =? 0) && (negb (year `mod` 100 =? 0) || (year `mod` 400 =? 0)).

(** [calendar.weekday]: years outside [MINYEAR..MAXYEAR] are folded into
    the 400-year cycle. *)
Definition cal_weekday (year month day : Z) : Z :=
  let year := if (MINYEAR <=? year) && (year <=? MAXYEAR) then year
              else 2000 + year `mod` 400 in
  (ymd2ord year month day + 6) `mod` 7.

(** [calendar.mdays] *)
Definition mdays (month : Z) : Z :=
  match month with
  | 1 => 31 | 2 => 28 | 3 => 31 | 4 => 30 | 5 => 31 | 6 => 30
  | 7 => 31 | 8 => 31 | 9 => 30 | 10 => 31 | 11 => 30 | 12 => 31
  | _ => 0
  end.

(** [calendar.monthrange], for the months 1 to 12: weekday of the first
    day, number of days. *)
Definition monthrange (year month : Z) : Z * Z :=
  (cal_weekday year month 1,
   mdays month + (if (month =? 2) && isleap year then 1 else 0)).

End Calendar.
Export Calendar.

(** [range(lo, hi)] *)
Definition range (lo hi : Z) : list Z :=
  (λ i, lo + Z.of_nat i) <$> seq 0 (Z.to_nat (hi - lo)).

(** ** Holiday definitions *)

Definition get_us_holidays (year : Z) : option (gmap date string) :=
  let holidays : gmap date string := ∅ in
  (* Fixed date holidays *)
  d ← date_of year 1 1;
  let holidays := <[d := "New Year's Day"]> holidays in
  d ← date_of year 7 4;
  let holidays := <[d := "Independence Day"]> holidays in
  d ← date_of year 11 11;
  let holidays := <[d := "Veterans Day"]> holidays in
  d ← date_of year 12 25;
  let holidays := <[d := "Christmas Day"]> holidays in
  (* MLK Day - Third Monday in January *)
  jan_1 ← date_of year 1 1;
  let days_to_monday := (7 - weekday jan_1) `mod` 7 in
  first_monday ← replace_day jan_1 (1 + days_to_monday);
  mlk_day ← replace_day first_monday (dday first_monday + 14);
  let holidays := <[mlk_day := "Martin Luther King Jr. Day"]> holidays in
  (* Presidents Day - Third Monday in February *)
  feb_1 ← date_of year 2 1;
  let days_to_monday := (7 - weekday feb_1) `mod` 7 in
  first_monday ← replace_day feb_1 (1 + days_to_monday);
  presidents_day ← replace_day first_monday (dday first_monday + 14);
  let holidays := <[presidents_day := "Presidents Day"]> holidays in
  (* Memorial Day - Last Monday in May *)
  may_31 ← date_of year 5 31;
  let days_back_to_monday := (weekday may_31 + 1) `mod` 7 in
  memorial_day ← replace_day may_31 (31 - days_back_to_monday);
  let holidays := <[memorial_day := "Memorial Day"]> holidays in
  (* Labor Day - First Monday in September *)
  sep_1 ← date_of year 9 1;
  let days_to_monday := (7 - weekday sep_1) `mod` 7 in
  labor_day ← replace_day sep_1 (1 + days_to_monday);
  let holidays := <[labor_day := "Labor Day"]> holidays in
  (* Columbus Day - Second Monday in October *)
  oct_1 ← date_of year 10 1;
  let days_to_monday := (7 - weekday oct_1) `mod` 7 in
  first_monday ← replace_day oct_1 (1 + days_to_monday);
  columbus_day ← replace_day first_monday (dday first_monday + 7);
  let holidays := <[columbus_day := "Columbus Day"]> holidays in
  (* Thanksgiving - Fourth Thursday in November *)
  nov_1 ← date_of year 11 1;
  let days_to_thursday := (3 - weekday nov_1) `mod` 7 in
  first_thursday ← replace_day nov_1 (1 + days_to_thursday);
  thanksgiving ← replace_day first_thursday (dday first_thursday + 21);
  let holidays := <[thanksgiving := "Thanksgiving Day"]> holidays in
  Some holidays.

(** [is_weekend]: Saturday is 5, Sunday is 6. *)
Definition is_weekend (date_obj : date) : bool := 5 <=? weekday date_obj.

(** The entries of the table of [get_us_holidays], latest assignment first,
    with the day numbers as the function computes them. *)
Definition holiday_entries (year : Z) : list (date * string) :=
  let days_to (shift month : Z) := (shift - weekday (Date year month 1)) `mod` 7 in
  let days_back_to_monday := (weekday (Date year 5 31) + 1) `mod` 7 in
  [ (Date year 11 (1 + days_to 3 11 + 21), "Thanksgiving Day");
    (Date year 10 (1 + days_to 7 10 + 7), "Columbus Day");
    (Date year 9 (1 + days_to 7 9), "Labor Day");
    (Date year 5 (31 - days_back_to_monday), "Memorial Day");
    (Date year 2 (1 + days_to 7 2 + 14), "Presidents Day");
    (Date year 1 (1 + days_to 7 1 + 14), "Martin Luther King Jr. Day");
    (Date year 12 25, "Christmas Day");
    (Date year 11 11, "Veterans Day");
    (Date year 7 4, "Independence Day");
    (Date year 1 1, "New Year's Day") ].

(** ** Strings, as [str] has them *)

(** [str(n)] and the [{n}] of an f-string, for an integer. *)
Definition str (n : Z) : string := NilZero.string_of_int (Z.to_int n).

Definition ord (c : ascii) : N := N_of_ascii c.

(** [c.isspace()] on the code points below 256. *)
Definition isspace (c : ascii) : bool :=
  let n := ord c in
  (((9 <=? n) && (n <=? 13)) || ((28 <=? n) && (n <=? 32))
   || (n =? 133) || (n =? 160))%N.

(** [c.isupper()], [c.islower()], [c.isdigit()] on the code points below 256. *)
Definition isupper (c : ascii) : bool :=
  let n := ord c in
  (((65 <=? n) && (n <=? 90)) || ((192 <=? n) && (n <=? 222) && negb (n =? 215)))%N.

Definition islower (c : ascii) : bool :=
  let n := ord c in
  (((97 <=? n) && (n <=? 122)) || (n =? 170) || (n =? 181) || (n =? 186)
   || ((223 <=? n) && (n <=? 255) && negb (n =? 247)))%N.

Definition isdigit (c : ascii) : bool :=
  let n := ord c in
  (((48 <=? n) && (n <=? 57)) || (n =? 178) || (n =? 179) || (n =? 185))%N.

(** [s.lower()] *)
Definition lower_char (c : ascii) : ascii :=
  if isupper c then ascii_of_N (ord c + 32) else c.

Fixpoint lower (s : string) : string :=
  match s with
  | EmptyString => EmptyString
  | String c s' => String (lower_char c) (lower s')
  end.

(** [s.strip()] *)
Fixpoint lstrip (s : string) : string :=
  match s with
  | EmptyString => EmptyString
  | String c s' => if isspace c then lstrip s' else s
  end.

Fixpoint rstrip (s : string) : string :=
  match s with
  | EmptyString => EmptyString
  | String c s' =>
      match rstrip s' with
      | EmptyString => if isspace c then EmptyString else String c EmptyString
      | r => String c r
      end
  end.

Definition strip (s : string) : string := rstrip (lstrip s).

(** [s.split()]: the maximal runs of characters that are not whitespace. *)
Fixpoint split_go (word : string) (s : string) : list string :=
  match s with
  | EmptyString => match word with EmptyString => [] | _ => [word] end
  | String c s' =>
      if isspace c
      then match word with
           | EmptyString => split_go EmptyString s'
           | _ => word :: split_go EmptyString s'
           end
      else split_go (word +:+ String c EmptyString) s'
  end.

Definition split (s : string) : list string := split_go EmptyString s.

(** [sep.join(l)] *)
Fixpoint join (sep : string) (l : list string) : string :=
  match l with
  | [] => EmptyString
  | [x] => x
  | x :: r => x +:+ sep +:+ join sep r
  end.

(** [c in s], for a character, and [p in s], for a substring. *)
Definition char_in (c : ascii) (s : string) : bool :=
  bool_decide (c ∈ list_ascii_of_string s).

Definition contains (p s : string) : bool :=
  match String.index 0 p s with Some _ => true | None => false end.

(** [len(s)] *)
Definition len (s : string) : Z := Z.of_nat (String.length s).

(** ** The rendering surface

    Of the canvas calls only the three that build the page graph are
    recorded, in call order: [linkRect] with its destination name (the
    rectangle, a tuple of floating-point page coordinates, is left out),
    [bookmarkPage] and [showPage]. The drawing calls (colours, fonts,
    [rect], [drawString], form fields) declare no anchor and no link. *)

Inductive canvas_op : Type :=
  | linkRect (destinationname : string)
  | bookmarkPage (key : string)
  | showPage.

Global Instance canvas_op_eq_dec : EqDecision canvas_op.
Proof. solve_decision. Defined.

(** The pages of a finished document: [showPage] closes the current page,
    and [save] closes a page that has pending calls. *)
Fixpoint pages_go (page : list canvas_op) (ops : list canvas_op) : list (list canvas_op) :=
  match ops with
  | [] => match page with [] => [] | _ => [page] end
  | showPage :: ops => page :: pages_go [] ops
  | op :: ops => pages_go (page ++ [op]) ops
  end.

Definition pages_of (ops : list canvas_op) : list (list canvas_op) := pages_go [] ops.

(** The anchors a page declares and the link targets it emits. *)
Definition bookmarks (page : list canvas_op) : list string :=
  omap (λ op, match op with bookmarkPage key => Some key | _ => None end) page.

Definition links (page : list canvas_op) : list string :=
  omap (λ op, match op with linkRect dest => Some dest | _ => None end) page.

(** ** Wisdom quotes *)

Definition WISDOM_QUOTES : list string := [
  "The journey of a thousand miles begins with one step. - Lao Tzu";
  "In the middle of difficulty lies opportunity. - Albert Einstein";
  "Life is what happens when you're busy making other plans. - John Lennon";
  "The only way to do great work is to love what you do. - Steve Jobs";
  "Success is not final, failure is not fatal: it is the courage to continue that counts. - Winston Churchill";
  "Be yourself; everyone else is already taken. - Oscar Wilde";
  "The future belongs to those who believe in the beauty of their dreams. - Eleanor Roosevelt";
  "It is during our darkest moments that we must focus to see the light. - Aristotle";
  "The best time to plant a tree was 20 years ago. The second best time is now. - Chinese Proverb";
  "Your time is limited, don't waste it living someone else's life. - Steve Jobs";
  "The only impossible journey is the one you never begin. - Tony Robbins";
  "In the end, we will remember not the words of our enemies, but the silence of our friends. - Martin Luther King Jr.";
  "The greatest glory in living lies not in never falling, but in rising every time we fall. - Nelson Mandela";
  "The way to get started is to quit talking and begin doing. - Walt Disney";
  "Life is really simple, but we insist on making it complicated. - Confucius";
  "May you live in interesting times. - Ancient Curse";
  "The only true wisdom is in knowing you know nothing. - Socrates";
  "Yesterday is history, tomorrow is a mystery, today is a gift. - Eleanor Roosevelt";
  "Do not go where the path may lead, go instead where there is no path and leave a trail. - Ralph Waldo Emerson";
  "Believe you can and you're halfway there. - Theodore Roosevelt";
  "The mind is everything. What you think you become. - Buddha";
  "A person who never made a mistake never tried anything new. - Albert Einstein";
  "Happiness is not something ready made. It comes from your own actions. - Dalai Lama";
  "The purpose of our lives is to be happy. - Dalai Lama";
  "Life is 10% what happens to you and 90% how you react to it. - Charles R. Swindoll";
  "The only way out is through. - Robert Frost";
  "What lies behind us and what lies before us are tiny matters compared to what lies within us. - Ralph Waldo Emerson";
  "You miss 100% of the shots you don't take. - Wayne Gretzky";
  "Whether you think you can or you think you can't, you're right. - Henry Ford";
  "The best revenge is massive success. - Frank Sinatra";
  "Do something today that your future self will thank you for. - Sean Patrick Flanery";
  "The secret of change is to focus all of your energy on building the new, not fighting the old. - Socrates";
  "The most difficult thing is the decision to act, the rest is merely tenacity. - Amelia Earhart";
  "Every moment is a fresh beginning. - T.S. Eliot";
  "You are never too old to set another goal or to dream a new dream. - C.S. Lewis";
  "Success is walking from failure to failure with no loss of enthusiasm. - Winston Churchill";
  "The difference between ordinary and extraordinary is that little extra. - Jimmy Johnson";
  "Don't count the days, make the days count. - Muhammad Ali";
  "If you want to live a happy life, tie it to a goal, not to people or things. - Albert Einstein";
  "Everything you've ever wanted is on the other side of fear. - George Addair"
].

(** [random.choice(seq)] with the draw [r] of the generator made explicit:
    any index below [len(seq)] can come out; [None] stands for the
    [IndexError] on an empty sequence. *)
Definition random_choice {A} (r : nat) (seq : list A) : option A :=
  seq !! (r `mod` length seq)%nat.

(** [DiaryGenerator.get_unique_quote], over the quote list [quotes] and the
    attribute [self.quotes_used]; returns the quote and the updated set. *)
Definition get_unique_quote_from (quotes : list string)
    (quotes_used : gset string) (r : nat) : option (string * gset string) :=
  let available_quotes := filter (λ q, q ∉ quotes_used) quotes in
  let '(quotes_used, available_quotes) :=
    match available_quotes with
    | [] => (∅, quotes)         (* Reset if we've used all quotes *)
    | _ => (quotes_used, available_quotes)
    end in
  quote ← random_choice r available_quotes;
  Some (quote, {[quote]} ∪ quotes_used).

Definition get_unique_quote : gset string → nat → option (string * gset string) :=
  get_unique_quote_from WISDOM_QUOTES.

(** Successive calls, one draw each: the quotes returned, in call order,
    and the final used-set. *)
Fixpoint quote_calls (quotes : list string) (quotes_used : gset string)
    (draws : list nat) : option (list string * gset string) :=
  match draws with
  | [] => Some ([], quotes_used)
  | r :: draws =>
      '(quote, quotes_used) ← get_unique_quote_from quotes quotes_used r;
      '(rest, quotes_used) ← quote_calls quotes quotes_used draws;
      Some (quote :: rest, quotes_used)
  end.

(** ** Text layout *)

(** One iteration of the loop of [wrap_text] over [(lines, current_line)]. *)
Definition wrap_step (fits : nat → bool)
    (st : list string * list string) (word : string) : list string * list string :=
  let '(lines, current_line) := st in
  let test_line := join " " (current_line ++ [word]) in
  if fits (String.length test_line)
  then (lines, current_line ++ [word])
  else (match current_line with
        | [] => lines
        | _ => lines ++ [join " " current_line]
        end, [word]).

(** [DiaryGenerator.wrap_text] with its width test [fits] on the length of
    the candidate line left open: whatever the floating-point comparison
    decides, it depends on [len(test_line)] alone within one call. *)
Definition wrap_text_with (fits : nat → bool) (text : string) : list string :=
  let words := split text in
  let '(lines, current_line) := foldl (wrap_step fits) ([], []) words in
  match current_line with
  | [] => lines
  | _ => lines ++ [join " " current_line]
  end.

(** ** Calendar grid of a month: [calendar.monthcalendar] *)

(** [Calendar.itermonthdays] with [firstweekday = 0]: zeros for the days
    of the neighbouring months that fill the first and the last week. *)
Definition itermonthdays (year month : Z) : list Z :=
  let '(day1, ndays) := monthrange year month in
  let days_before := (day1 - 0) `mod` 7 in
  let days_after := (0 - day1 - ndays) `mod` 7 in
  replicate (Z.to_nat days_before) 0 ++ range 1 (ndays + 1)
  ++ replicate (Z.to_nat days_after) 0.

(** [[days[i:i+7] for i in range(0, len(days), 7)]] *)
Definition monthcalendar (year month : Z) : list (list Z) :=
  let days := itermonthdays year month in
  (λ k, take 7 (drop (7 * k) days)) <$> seq 0 ((length days + 6) `div` 7)%nat.

(** ** The diary generator: page identity and links *)

Definition month_anchor (month_num : Z) : string := "month_" +:+ str month_num.

Definition day_anchor (month_num day_num : Z) : string :=
  "day_" +:+ str month_num +:+ "_" +:+ str day_num.

(** [DiaryGenerator.draw_month_tabs(c, current_month=None)]: one tab per
    month, with a link unless the tab is the current month's. *)
Definition draw_month_tabs (current_month : option Z) : list canvas_op :=
  i ← range 0 12;
  if bool_decide (current_month ≠ Some (i + 1))   (* Don't link to current page *)
  then [linkRect (month_anchor (i + 1))]
  else [].

(** [DiaryGenerator.create_cover_page] *)
Definition create_cover_page : list canvas_op :=
  draw_month_tabs None ++ [showPage].

(** [DiaryGenerator.create_month_page] *)
Definition create_month_page (year month_num : Z) : list canvas_op :=
  draw_month_tabs (Some month_num)
  ++ [bookmarkPage (month_anchor month_num)]
  ++ (week ← monthcalendar year month_num;
      day ← week;
      if bool_decide (day = 0) then []
      else [linkRect (day_anchor month_num day)])   (* Add link to day page *)
  ++ [showPage].

(** [DiaryGenerator.create_day_page] *)
Definition create_day_page (month_num day_num : Z) : list canvas_op :=
  draw_month_tabs (Some month_num)
  ++ [bookmarkPage (day_anchor month_num day_num)]
  ++ [showPage].

(** The [(month, day)] pairs of the two nested loops of [generate_diary]
    that create the day pages. *)
Definition day_loop (year : Z) : list (Z * Z) :=
  month ← range 1 13;
  let days_in_month := (monthrange year month).2 in
  day ← range 1 (days_in_month + 1);
  [(month, day)].

(** [total_days] of [generate_diary], the count it reports. *)
Definition total_days (year : Z) : Z := if isleap year then 366 else 365.

(** The calls of the page creators in the order of the loops of
    [generate_diary]: what the canvas of a run that gets through has
    recorded (the run itself, with the backgrounds that can end it, is
    [generate_diary] below). *)
Definition diary_calls (year : Z) : list canvas_op :=
  (* Create cover page *)
  create_cover_page
  (* Create month pages *)
  ++ (month ← range 1 13; create_month_page year month)
  (* Create day pages *)
  ++ ('(month, day) ← day_loop year; create_day_page month day).

(** The pages of the generated document. *)
Definition diary_pages (year : Z) : list (list canvas_op) :=
  pages_of (diary_calls year).

(** The Gregorian rule as the specification words it: divisible by 4,
    except centuries unless divisible by 400. *)
Definition gregorian_leap (year : Z) : Prop :=
  (4 | year) ∧ (¬ (100 | year) ∨ (400 | year)).

(** ** Password entry ([PasswordManager.py])

    The terminal is the list of what the successive prompts ([getpass],
    [input]) will do: hand back a typed line or raise. A prompt on an
    exhausted terminal raises [EOFError], as on a closed standard input. *)

Inductive exn : Type :=
  | KeyboardInterrupt
  | EOFError
  | ValueError (msg : string)
  | AttributeError (msg : string)
  | KeyError (key : string).

Inductive tty_event : Type :=
  | Typed (line : string)
  | Raises (e : exn).

Definition prompt (tty : list tty_event) : (exn + string) * list tty_event :=
  match tty with
  | [] => (inl EOFError, [])
  | Typed line :: tty => (inr line, tty)
  | Raises e :: tty => (inl e, tty)
  end.

(** How one pass through the body of the [while] loop of [get_password]
    ends: [return password], [continue], or an exception that leaves. *)
Inductive attempt_outcome : Type :=
  | Return (password : string)
  | Continue
  | Raise (e : exn).

(** The two handlers of the [try]: [KeyboardInterrupt] becomes a
    [ValueError]; [except Exception] goes on with the next attempt. *)
Definition handle (e : exn) : attempt_outcome :=
  match e with
  | KeyboardInterrupt => Raise (ValueError "Password entry cancelled")
  | _ => Continue
  end.

Definition attempt (min_length : Z) (tty : list tty_event)
    : attempt_outcome * list tty_event :=
  match prompt tty with
  | (inl e, tty) => (handle e, tty)
  | (inr password, tty) =>
      (* Validate password length *)
      if len password <? min_length then (Continue, tty)
      (* Check for empty password *)
      else if bool_decide (strip password = EmptyString) then (Continue, tty)
      else
        (* Confirm password *)
        match prompt tty with
        | (inl e, tty) => (handle e, tty)
        | (inr confirm_password, tty) =>
            if bool_decide (password ≠ confirm_password) then (Continue, tty)
            else (Return password, tty)
        end
  end.

Definition max_attempts_reached (max_attempts : Z) : exn :=
  ValueError ("Failed to get valid password after " +:+ str max_attempts +:+ " attempts").

(** The loop [while attempts < max_attempts: attempts += 1; ...]. *)
Equations? get_password_loop (min_length max_attempts attempts : Z)
    (tty : list tty_event) : (exn + string) * list tty_event
    by wf (Z.to_nat (max_attempts - attempts)) lt :=
  get_password_loop min_length max_attempts attempts tty
    with decide (attempts < max_attempts) := {
    | left _ with attempt min_length tty := {
        | (Return password, tty') => (inr password, tty')
        | (Raise e, tty') => (inl e, tty')
        | (Continue, tty') =>
            get_password_loop min_length max_attempts (attempts + 1) tty' }
    | right _ => (inl (max_attempts_reached max_attempts), tty) }.
Proof. lia. Qed.

(** [PasswordManager.get_password(min_length=4, max_attempts=3)] *)
Definition get_password (min_length max_attempts : Z) (tty : list tty_event)
    : (exn + string) * list tty_event :=
  get_password_loop min_length max_attempts 0 tty.

Inductive advice : Type :=
  | ConsiderEightCharacters
  | ConsiderMixing
  | GoodConsiderVariety
  | AvoidCommonPatterns.

(** [PasswordManager.validate_password_strength]; the feedback lines are
    named by what they advise. *)
Definition validate_password_strength (password : string) : bool * list advice :=
  let feedback : list advice := [] in
  let is_strong := true in
  (* Check length *)
  let '(is_strong, feedback) :=
    if len password <? 8
    then (if len password <? 6 then false else is_strong,
          feedback ++ [ConsiderEightCharacters])
    else (is_strong, feedback) in
  (* Check character variety *)
  let chars := list_ascii_of_string password in
  let has_upper := existsb isupper chars in
  let has_lower := existsb islower chars in
  let has_digit := existsb isdigit chars in
  let has_special := existsb (λ c, char_in c "!@#$%^&*()_+-=[]{}|;:,.<>?") chars in
  let char_types :=
    Z.b2z has_upper + Z.b2z has_lower + Z.b2z has_digit + Z.b2z has_special in
  let '(is_strong, feedback) :=
    if char_types <? 2 then (false, feedback ++ [ConsiderMixing])
    else if char_types <? 3 then (is_strong, feedback ++ [GoodConsiderVariety])
    else (is_strong, feedback) in
  (* Check for common patterns *)
  let common_patterns := ["123"; "abc"; "password"; "qwerty"; "111"; "000"] in
  let '(is_strong, feedback) :=
    if existsb (λ pattern, contains pattern (lower password)) common_patterns
    then (false, feedback ++ [AvoidCommonPatterns])
    else (is_strong, feedback) in
  (is_strong, feedback).

(** The inner [while True] of [get_password_with_strength_check]: ask until
    the answer is yes ([true]) or no/retry ([false]); an exception of
    [input] leaves. *)
Fixpoint ask_choice (tty : list tty_event) : (exn + bool) * list tty_event :=
  match tty with
  | [] => (inl EOFError, [])
  | Raises e :: tty => (inl e, tty)
  | Typed line :: tty =>
      let choice := strip (lower line) in
      if bool_decide (choice ∈ ["y"; "yes"]) then (inr true, tty)
      else if bool_decide (choice ∈ ["n"; "no"; "r"; "retry"]) then (inr false, tty)
      else ask_choice tty
  end.

(** Prompts only consume the terminal. *)
Lemma attempt_length min_length tty o tty' :
  attempt min_length tty = (o, tty') →
  (length tty' ≤ length tty)%nat
  ∧ ((∃ password, o = Return password) → (length tty' < length tty)%nat).
Proof.
  unfold attempt, prompt. intros H.
  repeat (first [ case_match | case_bool_decide ]; simplify_eq/=);
    (split; [lia | intros [? ?]; simplify_eq/=; try lia;
                   by destruct e]).
Qed.

Lemma get_password_loop_length min_length max_attempts attempts tty r tty' :
  get_password_loop min_length max_attempts attempts tty = (r, tty') →
  (length tty' ≤ length tty)%nat
  ∧ ((∃ password, r = inr password) → (length tty' < length tty)%nat).
Proof.
  funelim (get_password_loop min_length max_attempts attempts tty);
    intros Hr; try clear Heqcall;
    repeat match goal with
      | H : attempt _ _ = _ |- _ => apply attempt_length in H as [? ?]
      | IH : ∀ r tty', _ = _ → _ |- _ => apply IH in Hr as [? ?]; clear IH
      end;
    try (injection Hr as <- <-);
    (split; [lia | intros Hp]);
    repeat match goal with
      | H : (∃ _, _) → _ |- _ =>
          first [ specialize (H Hp) | specialize (H (ex_intro _ _ eq_refl)) | clear H ]
      end;
    try lia; by destruct Hp.
Qed.

Lemma ask_choice_length tty r tty' :
  ask_choice tty = (r, tty') → (length tty' ≤ length tty)%nat.
Proof.
  revert r tty'. induction tty as [|[line|e] tty IH]; intros r tty' H;
    simpl in H; repeat case_bool_decide; simplify_eq/=; try lia.
  apply IH in H. lia.
Qed.

(** A value together with the equation that it is the result of the call. *)
Definition inspect {A : Type} (x : A) : { y : A | x = y } := exist _ x eq_refl.

(** [PasswordManager.get_password_with_strength_check]: the outer
    [while True] starts over with a fresh [get_password()] after a refusal. *)
Equations? get_password_with_strength_check (tty : list tty_event)
    : (exn + string) * list tty_event by wf (length tty) lt :=
  get_password_with_strength_check tty with inspect (get_password 4 3 tty) := {
    | exist _ (inl e, tty1) _ => (inl e, tty1)
    | exist _ (inr password, tty1) Hpw
        with (validate_password_strength password).1 := {
        | true => (inr password, tty1)
        | false with inspect (ask_choice tty1) := {
            | exist _ (inl e, tty2) _ => (inl e, tty2)
            | exist _ (inr true, tty2) _ => (inr password, tty2)
            | exist _ (inr false, tty2) Hch =>
                get_password_with_strength_check tty2 } } }.
Proof.
  apply get_password_loop_length in Hpw as [_ Hlt].
  apply ask_choice_length in Hch.
  specialize (Hlt (ex_intro _ password eq_refl)). lia.
Qed.

(** [pdfencrypt.StandardEncryption], as [PDFSecurity.create_encryption]
    fills it. *)
Record StandardEncryption : Type := {
  userPassword : string;
  canPrint : Z;
  canModify : Z;
  canCopy : Z;
  canAnnotate : Z
}.

Definition create_encryption (password : string)
    (allow_printing allow_copying allow_modification allow_annotation : bool)
    : StandardEncryption :=
  {| userPassword := password;
     canPrint := if allow_printing then 1 else 0;
     canModify := if allow_modification then 1 else 0;
     canCopy := if allow_copying then 1 else 0;
     canAnnotate := if allow_annotation then 1 else 0 |}.

Definition create_high_security_encryption (password : string) : StandardEncryption :=
  create_encryption password true false false true.

(** [get_secure_password_for_diary] *)
Definition get_secure_password_for_diary (tty : list tty_event)
    : (exn + StandardEncryption) * list tty_event :=
  match get_password_with_strength_check tty with
  | (inl e, tty) => (inl e, tty)
  | (inr password, tty) => (inr (create_high_security_encryption password), tty)
  end.

(** ** Seasonal themes and backgrounds *)

(** [SeasonalTheme.get_season] *)
Definition get_season (month : Z) : string :=
  if bool_decide (month ∈ [12; 1; 2]) then "winter"
  else if bool_decide (month ∈ [3; 4; 5]) then "spring"
  else if bool_decide (month ∈ [6; 7; 8]) then "summer"
  else "autumn".

(** [Color(r, g, b)], with the components as the decimal literals written
    in the source. *)
Record Color : Type := { red : Q; green : Q; blue : Q }.

(** [SeasonalTheme.get_colors]: [themes[season]], where a season that is
    not a key raises [KeyError] ([None]); a palette is the dictionary of
    the four named colours. *)
Definition themes : gmap string (gmap string Color) :=
  {[ "winter" := {[ "primary" := Build_Color 0.8 0.9 1.0;
                    "secondary" := Build_Color 0.9 0.95 1.0;
                    "accent" := Build_Color 0.4 0.6 0.9;
                    "text" := Build_Color 0.2 0.3 0.5 ]};
     "spring" := {[ "primary" := Build_Color 0.9 1.0 0.9;
                    "secondary" := Build_Color 0.95 1.0 0.95;
                    "accent" := Build_Color 0.5 0.8 0.5;
                    "text" := Build_Color 0.2 0.5 0.3 ]};
     "summer" := {[ "primary" := Build_Color 1.0 0.95 0.8;
                    "secondary" := Build_Color 1.0 0.98 0.9;
                    "accent" := Build_Color 1.0 0.7 0.3;
                    "text" := Build_Color 0.6 0.4 0.2 ]};
     "autumn" := {[ "primary" := Build_Color 1.0 0.9 0.8;
                    "secondary" := Build_Color 1.0 0.95 0.9;
                    "accent" := Build_Color 0.9 0.5 0.3;
                    "text" := Build_Color 0.5 0.3 0.2 ]} ]}%Q.

Definition get_colors (season : string) : option (gmap string Color) :=
  themes !! season.

(** [SEASON_BACKGROUNDS] *)
Definition SEASON_BACKGROUNDS : gmap string string :=
  {[ "winter" := "images/winter_bg.jpg";
     "spring" := "images/spring_bg.jpg";
     "summer" := "images/summer_bg.jpg";
     "autumn" := "images/autumn_bg.jpg" ]}.

(** [BackgroundGenerator.get_season_from_month] *)
Definition get_season_from_month (month : Z) : string :=
  if bool_decide (month ∈ [12; 1; 2]) then "winter"
  else if bool_decide (month ∈ [3; 4; 5]) then "spring"
  else if bool_decide (month ∈ [6; 7; 8]) then "summer"
  else "autumn".

(** What ends up behind a page: the image of a file, or one of the
    generated drawings that can be completed. *)
Inductive background : Type :=
  | drawImage (image_path : string)
  | spring_drawing
  | summer_drawing
  | autumn_drawing.

(** [BackgroundGenerator.draw_background_image], with the outcome of
    loading the file as [loads]: returns whether the image was drawn and
    the attribute [use_images], which a failure turns off. *)
Definition draw_background_image (use_images : bool) (loads : bool) : bool * bool :=
  if loads then (true, use_images) else (false, false).

(** The four generated drawings. [draw_winter_background] draws its trees
    with [c.moveTo], [c.lineTo] and [c.closePath]; the canvas of reportlab
    has no such methods (they are methods of the path object that
    [c.beginPath()] returns), so that the first of these calls raises
    [AttributeError]. The other three drawings call [setFillColor],
    [rect], [circle], [line], [ellipse] and the like only. *)
Definition draw_winter_background : exn + background :=
  inl (AttributeError "'Canvas' object has no attribute 'moveTo'").
Definition draw_spring_background : exn + background := inr spring_drawing.
Definition draw_summer_background : exn + background := inr summer_drawing.
Definition draw_autumn_background : exn + background := inr autumn_drawing.

(** The chain [if season == "winter": ... else:  # autumn] that generates
    a background programmatically. *)
Definition draw_generated (season : string) : exn + background :=
  if bool_decide (season = "winter") then draw_winter_background
  else if bool_decide (season = "spring") then draw_spring_background
  else if bool_decide (season = "summer") then draw_summer_background
  else draw_autumn_background.

(** [BackgroundGenerator.draw_seasonal_background]: the background drawn,
    or the exception that leaves, and the attribute [use_images]
    afterwards. *)
Definition draw_seasonal_background (use_images : bool) (month : Z) (loads : bool)
    : (exn + background) * bool :=
  let season := get_season_from_month month in
  if use_images then
    (* Try to use external image file *)
    match SEASON_BACKGROUNDS !! season with
    | None => (inl (KeyError season), use_images)
    | Some image_path =>
        let '(drawn, use_images) := draw_background_image use_images loads in
        if drawn then (inr (drawImage image_path), use_images)
        (* If image loading fails, fall back to generated backgrounds *)
        else (draw_generated season, use_images)
    end
  else (draw_generated season, use_images).

(** A sequence of calls of [draw_seasonal_background] on one generator,
    each given by its month and by whether its image file would load; an
    exception ends the sequence. *)
Fixpoint draw_backgrounds (use_images : bool) (pages : list (Z * bool))
    : (exn + list background) * bool :=
  match pages with
  | [] => (inr [], use_images)
  | (month, loads) :: pages =>
      match draw_seasonal_background use_images month loads with
      | (inl e, use_images) => (inl e, use_images)
      | (inr b, use_images) =>
          match draw_backgrounds use_images pages with
          | (inl e, use_images) => (inl e, use_images)
          | (inr bs, use_images) => (inr (b :: bs), use_images)
          end
      end
  end.

(** ** The run of the generator

    What a run finds on disk: whether the four image files exist
    ([check_image_files]) and, for the page with a given index in the
    order of creation, whether [drawImage] would load the image of its
    season. *)
Record images : Type := Images {
  images_exist : bool;
  image_loads : nat → bool
}.

(** The generator while it runs: the attribute [use_images] of its
    [BackgroundGenerator], the number of pages begun, and the calls the
    canvas has recorded. *)
Record generator : Type := Generator {
  use_images : bool;
  pages_begun : nat;
  canvas : list canvas_op
}.

(** [DiaryGenerator(year, enc)] with its [BackgroundGenerator()], whose
    [use_images] is [check_image_files()]. *)
Definition new_generator (fs : images) : generator :=
  {| use_images := images_exist fs; pages_begun := 0; canvas := [] |}.

(** A step of the run changes the generator and returns, or raises. *)
Definition run (A : Type) : Type := generator → (exn + A) * generator.

Definition run_ret {A} (x : A) : run A := λ g, (inr x, g).

Definition run_bind {A B} (m : run A) (k : A → run B) : run B := λ g,
  match m g with
  | (inl e, g) => (inl e, g)
  | (inr x, g) => k x g
  end.

Notation "m ;;; k" := (run_bind m (λ _, k))
  (at level 61, right associativity, k at level 61).

(** [for x in l: body(x)] *)
Fixpoint for_each {A} (l : list A) (body : A → run unit) : run unit :=
  match l with
  | [] => run_ret tt
  | x :: l => body x ;;; for_each l body
  end.

(** [c = canvas.Canvas(filename, ...)] *)
Definition new_canvas : run unit := λ g,
  (inr tt, {| use_images := use_images g; pages_begun := pages_begun g; canvas := [] |}).

(** The recorded calls of a page creator, appended to the canvas. *)
Definition emit (calls : list canvas_op) : run unit := λ g,
  (inr tt, {| use_images := use_images g; pages_begun := pages_begun g;
              canvas := canvas g ++ calls |}).

(** [DiaryGenerator.draw_seasonal_background(c, month_num)], the first
    thing that every page creator does. *)
Definition seasonal_background (fs : images) (month_num : Z) : run unit := λ g,
  let '(drawn, use_images') :=
    draw_seasonal_background (use_images g) month_num (image_loads fs (pages_begun g)) in
  let g' := {| use_images := use_images'; pages_begun := S (pages_begun g);
               canvas := canvas g |} in
  match drawn with
  | inl e => (inl e, g')
  | inr _ => (inr tt, g')
  end.

(** A page creator as it runs: the seasonal background of [month_num]
    first, then its other calls. [create_cover_page] asks for the
    background of month 6, [create_month_page] and [create_day_page] for
    that of their month. *)
Definition page (fs : images) (month_num : Z) (calls : list canvas_op) : run unit :=
  seasonal_background fs month_num ;;; emit calls.

(** [DiaryGenerator.generate_diary], up to [c.save()]. *)
Definition generate_diary (fs : images) (year : Z) : run unit :=
  new_canvas ;;;
  (* Create cover page *)
  page fs 6 create_cover_page ;;;
  (* Create month pages *)
  for_each (range 1 13) (λ month, page fs month (create_month_page year month)) ;;;
  (* Create day pages *)
  for_each (range 1 13) (λ month,
    let days_in_month := (monthrange year month).2 in
    for_each (range 1 (days_in_month + 1)) (λ day,
      page fs month (create_day_page month day))).

(** How a run of [main] ends: [sys.exit], an exception nobody catches, or
    the saved file. *)
Inductive outcome : Type :=
  | Exit (code : Z)
  | Uncaught (e : exn)
  | Saved (filename : string) (encrypt : StandardEncryption) (ops : list canvas_op).

(** [main], from the parsed year on (the fonts are registered and the
    argument is read before). [PersonalInfoManager.py] is not imported by
    the generator, so that its pages and its tab are not part of a run. *)
Definition main (fs : images) (year : Z) (tty : list tty_event) : outcome :=
  if (year <? 1900) || (2100 <? year) then Exit 1
  else
    (* Get password for encryption *)
    match get_secure_password_for_diary tty with
    | (inl e, _) => Uncaught e
    | (inr enc, _) =>
        (* Generate diary *)
        match get_us_holidays year with            (* DiaryGenerator.__init__ *)
        | None => Uncaught (ValueError "year is out of range")
        | Some _ =>
            match generate_diary fs year (new_generator fs) with
            | (inl e, _) => Uncaught e
            | (inr _, g) => Saved ("diary_" +:+ str year +:+ ".pdf") enc (canvas g)
            end
        end
    end.

(** ** The page sequence, as the specification tells it *)

Inductive page_id : Type :=
  | Cover
  | Month (month : Z)
  | Day (month day : Z).

(** The call that creates a page. *)
Definition create_page (year : Z) (id : page_id) : list canvas_op :=
  match id with
  | Cover => create_cover_page
  | Month month => create_month_page year month
  | Day month day => create_day_page month day
  end.

(** The days of a year, month by month: [(month, day)] for the days 1 to
    the last of each month 1 to 12. *)
Definition calendar_days (year : Z) : list (Z * Z) :=
  month ← range 1 13;
  pair month <$> range 1 (days_in_month year month + 1).

(** Cover, then the months 1 to 12, then every day of the year. *)
Definition page_sequence (year : Z) : list page_id :=
  Cover :: (Month <$> range 1 13) ++ (uncurry Day <$> calendar_days year).

(** A year with the same months as [year]: 2024 for a leap year, 2023
    otherwise. *)
Definition same_calendar (year : Z) : Z := if isleap year then 2024 else 2023.

(** Every anchor the document declares, in page order, and every link
    target it emits. *)
Definition declared (doc : list (list canvas_op)) : list string := doc ≫= bookmarks.
Definition targeted (doc : list (list canvas_op)) : list string := doc ≫= links.

(** The anchors the specification names: [month_1] to [month_12], then
    [day_m_d] for every day [d] of every month [m]. *)
Definition anchors (year : Z) : list string :=
  (month_anchor <$> range 1 13)
  ++ (month ← range 1 13;
      day_anchor month <$> range 1 (days_in_month year month + 1)).

(** Membership and inclusion of anchor lists, as boolean tests. *)
Definition memb (t : string) (l : list string) : bool := existsb (String.eqb t) l.
Definition inclb (l k : list string) : bool := forallb (λ t, memb t k) l.

(** Does a page link to an anchor it declares? *)
Definition self_linked (page : list canvas_op) : bool :=
  existsb (λ a, memb a (links page)) (bookmarks page).

(** A word, as [split] yields them: not empty, no whitespace in it. *)
Fixpoint no_space (s : string) : Prop :=
  match s with
  | EmptyString => True
  | String c s' => isspace c = false ∧ no_space s'
  end.

Definition is_word (w : string) : Prop := w ≠ EmptyString ∧ no_space w.

(** A line is tight when it passes the width test or holds a single word. *)
Definition tight (fits : nat → bool) (group : list string) : Prop :=
  (2 ≤ length group)%nat → fits (String.length (join " " group)) = true.

(** The state of the loop of [wrap_text] after the words [processed]: the
    finished lines are groups of words, joined; the groups and the current
    line hold the words seen so far, in order; all of them are tight. *)
Definition wrap_inv (fits : nat → bool) (processed : list string)
    (st : list string * list string) : Prop :=
  ∃ groups : list (list string),
    st.1 = join " " <$> groups
    ∧ Forall (λ g, g ≠ []) groups
    ∧ concat groups ++ st.2 = processed
    ∧ Forall (tight fits) groups
    ∧ tight fits st.2.

(** The validation rules of [get_password]. *)
Definition valid_password (min_length : Z) (password : string) : Prop :=
  min_length ≤ len password ∧ strip password ≠ EmptyString.

(** What the terminal holds for one attempt that fails validation, and
    what it holds afterwards: a password that is too short, one of
    whitespace only, or a confirmation that differs. *)
Inductive failed_attempt (min_length : Z) : list tty_event → list tty_event → Prop :=
  | too_short password tty :
      len password < min_length →
      failed_attempt min_length (Typed password :: tty) tty
  | only_whitespace password tty :
      min_length ≤ len password → strip password = EmptyString →
      failed_attempt min_length (Typed password :: tty) tty
  | mismatch password confirm_password tty :
      valid_password min_length password → password ≠ confirm_password →
      failed_attempt min_length (Typed password :: Typed confirm_password :: tty) tty.

(** [n] failed attempts in a row. *)
Inductive failed_attempts (min_length : Z) : nat → list tty_event → list tty_event → Prop :=
  | failed_none tty : failed_attempts min_length 0 tty tty
  | failed_more n tty tty' tty'' :
      failed_attempt min_length tty tty' →
      failed_attempts min_length n tty' tty'' →
      failed_attempts min_length (S n) tty tty''.

(** An attempt that is cancelled, at the first or at the second prompt. *)
Inductive cancelled_attempt (min_length : Z) : list tty_event → list tty_event → Prop :=
  | cancel_at_password tty :
      cancelled_attempt min_length (Raises KeyboardInterrupt :: tty) tty
  | cancel_at_confirmation password tty :
      valid_password min_length password →
      cancelled_attempt min_length (Typed password :: Raises KeyboardInterrupt :: tty) tty.

Definition entry_cancelled : exn := ValueError "Password entry cancelled".

(** * More of the program *)

(** ** The pages of a run *)

(** The page creators that a run of [generate_diary] calls, in order, each
    with the month of its background and the calls it makes. *)
Definition page_jobs (year : Z) : list (Z * list canvas_op) :=
  (6, create_cover_page)
  :: ((λ month, (month, create_month_page year month)) <$> range 1 13)
  ++ ((λ '(month, day), (month, create_day_page month day)) <$> day_loop year).

(** Do the images serve the next [k] pages of a generator: its
    [use_images] is on and each of the [k] loads succeeds. *)
Definition images_serve (fs : images) (g : generator) (k : nat) : bool :=
  use_images g && forallb (image_loads fs) (seq (pages_begun g) k).

(** The run of a list of page creators. *)
Definition run_jobs (fs : images) (jobs : list (Z * list canvas_op)) : run unit :=
  for_each jobs (λ job, page fs job.1 job.2).

(** Is the background of this month a winter one. *)
Definition winter (month : Z) : bool :=
  bool_decide (get_season_from_month month = "winter").

(** The exception of the generated winter drawing. *)
Definition no_moveTo : exn :=
  AttributeError "'Canvas' object has no attribute 'moveTo'".

(** What claim C6 says of the pages [doc] of the diary of year [Y]: the
    cover page, the 12 month pages in order, one day page per calendar day
    in chronological order, 366 of them in a leap year and 365 otherwise. *)
Definition in_calendar_order (Y : Z) (doc : list (list canvas_op)) : Prop :=
  let days := calendar_days Y in
  (* the pages, in order, are those of the creating calls *)
  Forall2 (λ page id, pages_of (create_page Y id) = [page])
    doc
    (Cover :: (Month <$> range 1 13) ++ (uncurry Day <$> days))
  (* the loops run over the days 1..last of the months 1..12 *)
  ∧ day_loop Y = days
  ∧ (∀ m d, (m, d) ∈ days ↔ 1 ≤ m ≤ 12 ∧ 1 ≤ d ≤ days_in_month Y m)
  ∧ (∀ m, 1 ≤ m ≤ 12 → 28 ≤ days_in_month Y m ≤ 31)
  (* they are dates, in chronological order, none skipped *)
  ∧ (∀ m d, (m, d) ∈ days → date_of Y m d = Some (Date Y m d))
  ∧ (λ md, ymd2ord Y md.1 md.2) <$> days
    = range (ymd2ord Y 1 1) (ymd2ord Y 1 1 + Z.of_nat (length days))
  ∧ head days = Some (1, 1)
  ∧ last days = Some (12, 31)
  (* the day count *)
  ∧ (gregorian_leap Y → length days = 366%nat)
  ∧ (¬ gregorian_leap Y → length days = 365%nat)
  ∧ length doc = (1 + 12 + length days)%nat.

(** ** The cells of a month page *)

Inductive cell_fill : Type := holiday_fill | weekend_fill | primary_fill.

(** A cell of the calendar grid as [create_month_page] draws it: its row
    and column, the day number, the fill and the small label. *)
Record cell : Type := Cell {
  cell_week : nat;
  cell_column : nat;
  cell_day : Z;
  cell_colour : cell_fill;
  cell_label : option string
}.

(** [enumerate(l)] *)
Definition enumerate {A} (l : list A) : list (nat * A) := imap pair l.

(** The name of a holiday as the cell shows it: long names are cut to 12
    characters and get three dots. *)
Definition abbreviate (holiday_name : string) : string :=
  if 15 <? len holiday_name
  then String.substring 0 12 holiday_name +:+ "..."
  else holiday_name.

(** The body of the inner loop of [create_month_page] for one cell; a
    zero cell is skipped ([continue]). [None] is an exception: the
    [ValueError] of [date(...)]. *)
Definition draw_cell (year : Z) (holidays : gmap date string) (month_num : Z)
    (week_num day_num : nat) (day : Z) : option (list cell) :=
  if bool_decide (day = 0) then Some []
  else
    current_date ← date_of year month_num day;
    let is_holiday := bool_decide (is_Some (holidays !! current_date)) in
    let is_wknd := is_weekend current_date in
    let fill :=
      if is_holiday then holiday_fill
      else if is_wknd then weekend_fill
      else primary_fill in
    label ←
      (if is_holiday then
         holiday_name ← holidays !! current_date;
         Some (Some (abbreviate holiday_name))
       else if is_wknd then
         Some (Some (if bool_decide (weekday current_date = 5) then "Sat" else "Sun"))
       else Some None);
    Some [Cell week_num day_num day fill label].

(** The cells that [create_month_page] draws, in drawing order. *)
Definition month_cells (year : Z) (holidays : gmap date string) (month_num : Z)
    : option (list cell) :=
  weeks ← mapM (λ '(week_num, week),
             cells ← mapM (λ '(day_num, day),
                       draw_cell year holidays month_num week_num day_num day)
                     (enumerate week);
             Some (concat cells))
           (enumerate (monthcalendar year month_num));
  Some (concat weeks).

(** ** The form fields of the day pages *)

(** [f'{n:02d}'] *)
Definition format_02d (n : Z) : string :=
  let s := str n in
  if (String.length s <? 2)%nat then "0" +:+ s else s.

(** The names of the two text fields that [create_day_page] creates on a
    canvas with form support. *)
Definition day_page_fields (month_num day_num : Z) : list string :=
  [ "activities_" +:+ format_02d month_num +:+ format_02d day_num;
    "notes_" +:+ format_02d month_num +:+ format_02d day_num ].

(** The field names of the day pages of the days [days], in creation
    order. *)
Definition fields_of (days : list (Z * Z)) : list string :=
  '(month, day) ← days; day_page_fields month day.

(** ** Personal information pages ([PersonalInfoManager.py]) *)








(** ** More of the password front end *)

(** The answers that [get_password_with_strength_check] takes for a yes
    and for a no or retry. *)
Definition answers_yes (line : string) : Prop := strip (lower line) ∈ ["y"; "yes"].
Definition answers_no (line : string) : Prop :=
  strip (lower line) ∈ ["n"; "no"; "r"; "retry"].

(** [char_types] of [validate_password_strength]: how many of the four
    character classes occur in the password. *)
Definition char_types (password : string) : Z :=
  let chars := list_ascii_of_string password in
  Z.b2z (existsb isupper chars) + Z.b2z (existsb islower chars)
  + Z.b2z (existsb isdigit chars)
  + Z.b2z (existsb (λ c, char_in c "!@#$%^&*()_+-=[]{}|;:,.<>?") chars).

Definition has_common_pattern (password : string) : bool :=
  existsb (λ pattern, contains pattern (lower password))
    ["123"; "abc"; "password"; "qwerty"; "111"; "000"].

(** Two lines in a row of a wrapped text break greedily when the first
    line, extended by the first word of the second, fails the width test. *)
Definition greedy_break (fits : nat → bool) (group next : list string) : Prop :=
  ∃ word rest, next = word :: rest
    ∧ fits (String.length (join " " (group ++ [word]))) = false.

Fixpoint greedy_chain (fits : nat → bool) (groups : list (list string)) : Prop :=
  match groups with
  | group :: ((next :: _) as groups') =>
      greedy_break fits group next ∧ greedy_chain fits groups'
  | _ => True
  end.

(** The state of the loop of [wrap_text] after the words [processed], as
    a greedy chain: the groups behind the finished lines, followed by the
    current line, break greedily. *)
Definition wrap_greedy_inv (fits : nat → bool) (processed : list string)
    (st : list string * list string) : Prop :=
  ∃ groups : list (list string),
    st.1 = join " " <$> groups
    ∧ Forall (λ g, g ≠ []) groups
    ∧ concat groups ++ st.2 = processed
    ∧ (st.2 = [] → groups = [])
    ∧ greedy_chain fits (groups ++ match st.2 with [] => [] | _ => [st.2] end).

(** The weeks of [monthcalendar], from what [monthrange] returned: the
    weekday [day1] of the first day and the number [ndays] of days. *)
Definition month_grid (day1 ndays : Z) : list (list Z) :=
  let days_before := (day1 - 0) `mod` 7 in
  let days_after := (0 - day1 - ndays) `mod` 7 in
  let days := replicate (Z.to_nat days_before) 0 ++ range 1 (ndays + 1)
              ++ replicate (Z.to_nat days_after) 0 in
  (λ k, take 7 (drop (7 * k) days)) <$> seq 0 ((length days + 6) `div` 7)%nat.

(** The cells of a grid that the two loops of [create_month_page] do not
    skip: row, column and day number, in loop order. *)
Definition grid_days (cal : list (list Z)) : list (nat * nat * Z) :=
  '(week_num, week) ← enumerate cal;
  '(day_num, day) ← enumerate week;
  if bool_decide (day = 0) then [] else [(week_num, day_num, day)].

(** What [create_month_page] shows in the cell of a day. *)
Definition shown_as (holidays : gmap date string) (d : date) (c : cell) : Prop :=
  match holidays !! d with
  | Some holiday_name =>
      cell_colour c = holiday_fill ∧ cell_label c = Some (abbreviate holiday_name)
  | None =>
      if is_weekend d
      then cell_colour c = weekend_fill
           ∧ cell_label c = Some (if bool_decide (weekday d = 5) then "Sat" else "Sun")
      else cell_colour c = primary_fill ∧ cell_label c = None
  end.

(** The characters of [str n] are digits or the minus sign: none is an
    underscore. *)
Fixpoint numeral (s : string) : Prop :=
  match s with
  | EmptyString => True
  | String c s' => c ≠ "_"%char ∧ numeral s'
  end.

(** * Properties *)

(** ** Dates and weekdays *)

Section dates.
Implicit Types year month day : Z.

Lemma mod7_bounds (x : Z) : 0 ≤ x `mod` 7 < 7.
Proof. apply Z.mod_pos_bound. lia. Qed.

Lemma days_in_month_ge year month :
  1 ≤ month ≤ 12 → 28 ≤ days_in_month year month ≤ 31.
Proof.
  intros Hm. unfold days_in_month.
  assert (month ∈ range 1 13) as Hin.
  { apply list_elem_of_fmap. exists (Z.to_nat (month - 1)).
    split; [lia | apply elem_of_seq; simpl; lia]. }
  vm_compute range in Hin.
  repeat (apply elem_of_cons in Hin as [->|Hin]);
    [by destruct (is_leap year).. | by apply elem_of_nil in Hin].
Qed.

Lemma date_of_valid year month day :
  MINYEAR ≤ year ≤ MAXYEAR → 1 ≤ month ≤ 12 →
  1 ≤ day ≤ days_in_month year month →
  date_of year month day = Some (Date year month day).
Proof.
  unfold date_of, check_date_fields, MINYEAR, MAXYEAR. intros Hy Hm Hd.
  repeat match goal with
    | |- context [?a <=? ?b] => rewrite (proj2 (Z.leb_le a b)) by lia
    end.
  done.
Qed.

(** A date that is built is the one asked for. *)
Lemma date_of_Some year month day d :
  date_of year month day = Some d →
  d = Date year month day
  ∧ MINYEAR ≤ year ≤ MAXYEAR ∧ 1 ≤ month ≤ 12
  ∧ 1 ≤ day ≤ days_in_month year month.
Proof.
  unfold date_of, check_date_fields, MINYEAR, MAXYEAR.
  case_match eqn:Hc; [|done].
  intros [= <-]. repeat (apply andb_prop in Hc as [Hc ?]).
  repeat match goal with
    | H : (_ <=? _) = true |- _ => apply Z.leb_le in H
    end.
  done.
Qed.

(** Moving within a month moves the weekday along. *)
Lemma weekday_shift year month day k :
  weekday (Date year month (day + k)) = (weekday (Date year month day) + k) `mod` 7.
Proof.
  unfold weekday, toordinal, ymd2ord; simpl.
  generalize (days_before_year year + days_before_month year month).
  intros c. rewrite Zplus_mod_idemp_l. f_equal. lia.
Qed.

(** First weekday of the wanted kind on or after the 1st, then [weeks]
    weeks on: the rule of the January, February, September, October and
    November holidays ([shift] is 7 for a Monday, 3 for a Thursday). *)
Lemma nth_weekday_rule year month shift weeks :
  let first := Date year month 1 in
  let days_to := (shift - weekday first) `mod` 7 in
  weekday (Date year month (1 + days_to + 7 * weeks)) = shift `mod` 7.
Proof.
  intros first days_to.
  replace (1 + days_to + 7 * weeks) with (1 + (days_to + 7 * weeks)) by lia.
  rewrite weekday_shift. fold first. subst days_to.
  rewrite Z.add_assoc, Z.mul_comm, Z_mod_plus_full, Zplus_mod_idemp_r.
  f_equal. lia.
Qed.

(** Stepping back [(weekday + 1) mod 7] days from a date lands on a
    Sunday, whatever the date. *)
Lemma days_back_rule year month day :
  let last := Date year month day in
  let days_back := (weekday last + 1) `mod` 7 in
  weekday (Date year month (day - days_back)) = 6.
Proof.
  intros last days_back.
  replace (day - days_back) with (day + - days_back) by lia.
  rewrite weekday_shift. fold last. subst days_back.
  pose proof (mod7_bounds (toordinal last + 6)) as Hw. fold (weekday last) in Hw.
  destruct (decide (weekday last = 6)) as [->|Hne].
  - by vm_compute.
  - rewrite (Z.mod_small (weekday last + 1)) by lia.
    replace (weekday last + - (weekday last + 1)) with (-1) by lia. done.
Qed.

Lemma isleap_gregorian year : isleap year = true ↔ gregorian_leap year.
Proof.
  unfold isleap, gregorian_leap.
  rewrite andb_true_iff, orb_true_iff, negb_true_iff, !Z.eqb_eq, Z.eqb_neq.
  rewrite <- !Z.mod_divide by lia. done.
Qed.

End dates.

(** ** The holiday table *)

Ltac date_bounds :=
  unfold MINYEAR, MAXYEAR in *;
  repeat match goal with
    | |- context [?x `mod` 7] =>
        pose proof (mod7_bounds x); generalize dependent (x `mod` 7); intros
    end;
  repeat match goal with
    | |- context [days_in_month ?y 5] => change (days_in_month y 5) with 31
    | |- context [days_in_month ?y ?m] =>
        pose proof (days_in_month_ge y m ltac:(lia));
        generalize dependent (days_in_month y m); intros
    end;
  lia.

Lemma bind_date_of {B} year month day (f : date → option B) :
  MINYEAR ≤ year ≤ MAXYEAR → 1 ≤ month ≤ 12 →
  1 ≤ day ≤ days_in_month year month →
  date_of year month day ≫= f = f (Date year month day).
Proof. intros. by rewrite date_of_valid. Qed.

Ltac build_date :=
  cbn [dyear dmonth dday];
  lazymatch goal with
  | |- date_of ?y ?m ?d ≫= ?f = _ =>
      rewrite (bind_date_of y m d f) by date_bounds; cbv beta
  end.

Section holidays.
Variable year : Z.
Hypothesis Hyear : MINYEAR ≤ year ≤ MAXYEAR.

(** No [ValueError]: every date the function builds exists, and the
    table is the ten assignments. *)
Lemma get_us_holidays_entries :
  get_us_holidays year = Some (list_to_map (holiday_entries year)).
Proof using Hyear.
  unfold get_us_holidays, replace_day. repeat build_date. done.
Qed.

Lemma holiday_entries_NoDup : NoDup (holiday_entries year).*1.
Proof.
  unfold holiday_entries; cbn [fmap list_fmap fst].
  repeat match goal with
    | |- context [?x `mod` 7] =>
        pose proof (mod7_bounds x); generalize dependent (x `mod` 7); intros
    end.
  repeat (apply NoDup_cons_2;
    [ rewrite ?elem_of_cons, elem_of_nil; intros Hin;
      decompose [or] Hin; try done;
      match goal with
      | Heq : Date _ _ _ = Date _ _ _ |- _ => injection Heq; intros; lia
      end | ]).
  apply NoDup_nil_2.
Qed.

Lemma holiday_entries_lookup (d : date) (name : string) :
  (list_to_map (holiday_entries year) : gmap date string) !! d = Some name
  ↔ (d, name) ∈ holiday_entries year.
Proof. symmetry. apply elem_of_list_to_map, holiday_entries_NoDup. Qed.

End holidays.

(** The floating holidays of the table and the weekday they land on. *)
Lemma floating_holidays_weekdays (year : Z) (holidays : gmap date string) :
  MINYEAR ≤ year ≤ MAXYEAR →
  get_us_holidays year = Some holidays →
  ∀ d name, holidays !! d = Some name →
    (name = "Martin Luther King Jr. Day" → weekday d = 0)
    ∧ (name = "Presidents Day" → weekday d = 0)
    ∧ (name = "Labor Day" → weekday d = 0)
    ∧ (name = "Columbus Day" → weekday d = 0)
    ∧ (name = "Thanksgiving Day" → weekday d = 3)
    ∧ (name = "Memorial Day" → weekday d = 6).
Proof.
  intros Hy Hh d name Hd.
  rewrite get_us_holidays_entries in Hh by done. injection Hh as <-.
  apply holiday_entries_lookup in Hd.
  unfold holiday_entries in Hd.
  pose proof (nth_weekday_rule year) as Hnth. cbv zeta in Hnth.
  pose proof (days_back_rule year 5 31) as Hback. cbv zeta in Hback.
  repeat (apply elem_of_cons in Hd as [[= -> ->]|Hd]);
    [..|by apply elem_of_nil in Hd];
    repeat split; intros [=];
    first [ apply Hback
          | apply (Hnth 11 3 3) | apply (Hnth 10 7 1) | apply (Hnth 2 7 2)
          | apply (Hnth 1 7 2)
          | rewrite <- (Z.add_0_r (1 + _)); apply (Hnth 9 7 0) ].
Qed.

(** C4 (Memorial Day): the floating holidays are claimed to fall on their
    required weekdays, Memorial Day on a Monday. For 2024 the table files
    Memorial Day under May 26th, and only there; that day is a Sunday,
    while the last Monday of May 2024 is the 27th. *)
Theorem memorial_day_2024_falls_on_sunday :
  ∃ holidays : gmap date string,
    get_us_holidays 2024 = Some holidays
    ∧ holidays !! Date 2024 5 26 = Some "Memorial Day"
    ∧ (∀ d, holidays !! d = Some "Memorial Day" → d = Date 2024 5 26)
    ∧ weekday (Date 2024 5 26) = 6
    ∧ weekday (Date 2024 5 27) = 0
    ∧ holidays !! Date 2024 5 27 = None.
Proof.
  exists (list_to_map (holiday_entries 2024)).
  split; [by apply get_us_holidays_entries|].
  split; [by vm_compute|].
  split; [|by vm_compute].
  intros d Hd. apply holiday_entries_lookup in Hd.
  vm_compute holiday_entries in Hd.
  repeat (apply elem_of_cons in Hd as [Hd|Hd];
    [apply pair_equal_spec in Hd as [-> Hn]; first [discriminate Hn | reflexivity]|]).
  by apply elem_of_nil in Hd.
Qed.

(** C5: for every year Y in [1900,2100], [get_us_holidays Y] returns a
    table of exactly 10 entries, whose keys are pairwise distinct dates all
    lying within year Y. *)
Theorem get_us_holidays_ten_dates_of_year (Y : Z) :
  1900 ≤ Y ≤ 2100 →
  ∃ holidays : gmap date string,
    get_us_holidays Y = Some holidays
    ∧ size holidays = 10%nat
    ∧ length (map_to_list holidays) = 10%nat
    ∧ NoDup (map_to_list holidays).*1
    ∧ ∀ d, d ∈ (map_to_list holidays).*1 →
        dyear d = Y ∧ date_of Y (dmonth d) (dday d) = Some d.
Proof.
  intros HY.
  assert (MINYEAR ≤ Y ≤ MAXYEAR) as Hrange by (unfold MINYEAR, MAXYEAR; lia).
  exists (list_to_map (holiday_entries Y)).
  assert (size (list_to_map (holiday_entries Y) : gmap date string) = 10%nat) as Hsize.
  { rewrite map_size_list_to_map by apply holiday_entries_NoDup. done. }
  split; [by apply get_us_holidays_entries|].
  split; [done|].
  split; [by rewrite length_map_to_list|].
  split; [apply NoDup_fst_map_to_list|].
  intros d [[d' name] [-> Hd]]%list_elem_of_fmap.
  apply elem_of_map_to_list, holiday_entries_lookup in Hd; simpl.
  unfold holiday_entries in Hd.
  repeat (apply elem_of_cons in Hd as [[= -> ->]|Hd]);
    [..|by apply elem_of_nil in Hd];
    (split; [done|]); cbn [dmonth dday]; apply date_of_valid; date_bounds.
Qed.

Lemma get_us_holidays_ten_dates_of_year_witness :
  1900 ≤ 2024 ≤ 2100
  ∧ ∃ holidays : gmap date string,
      get_us_holidays 2024 = Some holidays
      ∧ size holidays = 10%nat
      ∧ length (map_to_list holidays) = 10%nat
      ∧ NoDup (map_to_list holidays).*1
      ∧ ∀ d, d ∈ (map_to_list holidays).*1 →
          dyear d = 2024 ∧ date_of 2024 (dmonth d) (dday d) = Some d.
Proof.
  split; [lia|]. apply (get_us_holidays_ten_dates_of_year 2024). lia.
Defined.

(** ** Ranges and the calendar grid *)

Lemma elem_of_range lo hi x : x ∈ range lo hi ↔ lo ≤ x < hi.
Proof.
  unfold range. rewrite list_elem_of_fmap. split.
  - intros (i & -> & Hi%elem_of_seq). lia.
  - intros Hx. exists (Z.to_nat (x - lo)). split; [lia|]. apply elem_of_seq. lia.
Qed.

Lemma length_range lo hi : length (range lo hi) = Z.to_nat (hi - lo).
Proof. unfold range. by rewrite length_fmap, length_seq. Qed.

Lemma is_leap_isleap year : is_leap year = isleap year.
Proof. done. Qed.

Lemma monthrange_days year month :
  1 ≤ month ≤ 12 → (monthrange year month).2 = days_in_month year month.
Proof.
  intros Hm. assert (month ∈ range 1 13) as Hin by (apply elem_of_range; lia).
  clear Hm. rename Hin into Hm. unfold monthrange, days_in_month; simpl.
  change (is_leap year) with (isleap year). vm_compute range in Hm.
  repeat (apply elem_of_cons in Hm as [->|Hm]);
    [by destruct (isleap year)..|by apply elem_of_nil in Hm].
Qed.

Lemma monthrange_same_calendar year month :
  (monthrange (same_calendar year) month).2 = (monthrange year month).2.
Proof.
  unfold monthrange, same_calendar; simpl. by destruct (isleap year).
Qed.

(** Cutting a list into slices of [n] and gluing them again. *)
Lemma concat_slices {A} (n : nat) (l : list A) (c : nat) :
  (length l ≤ n * c)%nat →
  concat ((λ k, take n (drop (n * k) l)) <$> seq 0 c) = l.
Proof.
  revert l. induction c as [|c IH]; intros l Hl.
  - destruct l; [done | simpl in Hl; lia].
  - rewrite <- cons_seq, <- fmap_S_seq, fmap_cons, <- list_fmap_compose; simpl.
    rewrite Nat.mul_0_r, drop_0.
    transitivity (take n l ++ drop n l); [|apply take_drop]. f_equal.
    rewrite <- (IH (drop n l)) by (rewrite length_drop; lia).
    f_equal. apply list_fmap_ext. intros _ k _; simpl.
    rewrite drop_drop. do 2 f_equal. lia.
Qed.

Lemma monthcalendar_concat year month :
  concat (monthcalendar year month) = itermonthdays year month.
Proof.
  unfold monthcalendar. apply concat_slices.
  pose proof (Nat.div_mod_eq (length (itermonthdays year month) + 6) 7).
  pose proof (Nat.mod_upper_bound (length (itermonthdays year month) + 6) 7).
  lia.
Qed.

Lemma bind_bind_concat {A B} (f : A → list B) (ll : list (list A)) :
  (l ← ll; x ← l; f x) = concat ll ≫= f.
Proof.
  induction ll as [|l ll IH]; [done|]. simpl. rewrite bind_app. by f_equal.
Qed.

(** The cells of the grid that are linked are the days of the month, in
    order; the padding zeros of the first and last week are skipped. *)
Lemma month_grid_links year month_num :
  (week ← monthcalendar year month_num;
   day ← week;
   if bool_decide (day = 0) then []
   else [linkRect (day_anchor month_num day)])
  = (λ day, linkRect (day_anchor month_num day))
      <$> range 1 ((monthrange year month_num).2 + 1).
Proof.
  rewrite bind_bind_concat, monthcalendar_concat. unfold itermonthdays.
  destruct (monthrange year month_num) as [day1 ndays]; simpl.
  assert (∀ n (f : Z → list canvas_op), f 0 = [] → replicate n 0 ≫= f = []) as Hpad.
  { intros n f Hf. induction n as [|n IH]; [done|]. simpl. by rewrite Hf. }
  rewrite !bind_app, !Hpad by done. rewrite app_nil_r. simpl.
  generalize (ndays + 1). intros hi.
  assert (∀ l : list Z, Forall (λ d, 1 ≤ d) l →
    l ≫= (λ day, if bool_decide (day = 0) then []
                 else [linkRect (day_anchor month_num day)])
    = (λ day, linkRect (day_anchor month_num day)) <$> l) as Hdays.
  { induction 1 as [|d l Hd _ IH]; [done|]. simpl.
    rewrite bool_decide_eq_false_2 by lia. simpl. by f_equal. }
  apply Hdays, Forall_forall. intros d Hd%elem_of_range. lia.
Qed.

Lemma create_month_page_eq year month_num :
  create_month_page year month_num
  = draw_month_tabs (Some month_num)
    ++ [bookmarkPage (month_anchor month_num)]
    ++ ((λ day, linkRect (day_anchor month_num day))
          <$> range 1 ((monthrange year month_num).2 + 1))
    ++ [showPage].
Proof. unfold create_month_page. by rewrite month_grid_links. Qed.

(** The canvas calls of a run depend on the year only through its being
    a leap year or not. *)
Lemma day_loop_same_calendar year : day_loop (same_calendar year) = day_loop year.
Proof.
  unfold day_loop. apply list_bind_ext; [|done].
  intros month. by rewrite monthrange_same_calendar.
Qed.

Lemma diary_calls_same_calendar year :
  diary_calls (same_calendar year) = diary_calls year.
Proof.
  unfold diary_calls. rewrite day_loop_same_calendar. do 2 f_equal.
  apply list_bind_ext; [|done]. intros month.
  by rewrite !create_month_page_eq, monthrange_same_calendar.
Qed.

Lemma diary_pages_same_calendar year :
  diary_pages (same_calendar year) = diary_pages year.
Proof. unfold diary_pages. by rewrite diary_calls_same_calendar. Qed.

Lemma days_in_month_same_calendar year month :
  days_in_month (same_calendar year) month = days_in_month year month.
Proof.
  unfold days_in_month, same_calendar.
  change is_leap with isleap. by destruct (isleap year).
Qed.

(** A property of the pages of every year is one of the pages of a leap
    year and of a common year. *)
Lemma diary_pages_ind (P : list (list canvas_op) → Prop) (year : Z) :
  P (diary_pages 2024) → P (diary_pages 2023) → P (diary_pages year).
Proof.
  intros Hleap Hcommon. rewrite <- diary_pages_same_calendar.
  unfold same_calendar. by destruct (isleap year).
Qed.

Lemma anchors_same_calendar year : anchors (same_calendar year) = anchors year.
Proof.
  unfold anchors. f_equal. apply list_bind_ext; [|done].
  intros month. by rewrite days_in_month_same_calendar.
Qed.

(** ** Anchors and links of the document *)

Lemma declared_anchors year : declared (diary_pages year) = anchors year.
Proof.
  rewrite <- diary_pages_same_calendar, <- anchors_same_calendar.
  unfold same_calendar. destruct (isleap year); by vm_compute.
Qed.

Lemma anchors_NoDup year : NoDup (anchors year).
Proof.
  rewrite <- anchors_same_calendar.
  unfold same_calendar. destruct (isleap year); compute_done.
Qed.

Lemma memb_spec t l : memb t l = true ↔ t ∈ l.
Proof.
  unfold memb. induction l as [|x l IH]; simpl.
  - rewrite elem_of_nil. naive_solver.
  - rewrite elem_of_cons, orb_true_iff, String.eqb_eq, IH. done.
Qed.

Lemma inclb_spec l k : inclb l k = true ↔ ∀ t, t ∈ l → t ∈ k.
Proof.
  unfold inclb. induction l as [|x l IH]; simpl.
  - split; [intros _ t []%elem_of_nil | done].
  - rewrite andb_true_iff, memb_spec, IH. split.
    + intros [Hx Hl] t [->|Ht]%elem_of_cons; auto.
    + intros Hl. split; [|intros t Ht]; apply Hl, elem_of_cons; auto.
Qed.

Lemma targeted_anchors year :
  (∀ t, t ∈ targeted (diary_pages year) ↔ t ∈ anchors year).
Proof.
  rewrite <- diary_pages_same_calendar, <- anchors_same_calendar.
  assert (∀ l k, inclb l k = true → inclb k l = true → ∀ t, t ∈ l ↔ t ∈ k) as Hsame.
  { intros l k Hlk Hkl t.
    pose proof (proj1 (inclb_spec l k) Hlk). pose proof (proj1 (inclb_spec k l) Hkl).
    naive_solver. }
  unfold same_calendar. destruct (isleap year); apply Hsame; by vm_compute.
Qed.

Lemma declared_lookup (doc : list (list canvas_op)) a :
  a ∈ declared doc ↔ ∃ i p, doc !! i = Some p ∧ a ∈ bookmarks p.
Proof.
  unfold declared. rewrite list_elem_of_bind. split.
  - intros (p & Ha & (i & Hi)%list_elem_of_lookup). eauto.
  - intros (i & p & Hi & Ha). exists p. split; [done|].
    by eapply list_elem_of_lookup_2.
Qed.

(** Declarations without duplicates are declarations by distinct pages. *)
Lemma declared_once (doc : list (list canvas_op)) :
  NoDup (declared doc) →
  ∀ i j p q a,
    doc !! i = Some p → doc !! j = Some q →
    a ∈ bookmarks p → a ∈ bookmarks q → i = j.
Proof.
  induction doc as [|p0 doc IH]; intros Hnd i j p q a Hi Hj Hp Hq; [done|].
  unfold declared in Hnd. rewrite bind_cons in Hnd.
  apply NoDup_app in Hnd as (_ & Hdisj & Hnd).
  assert (∀ k r, doc !! k = Some r → a ∈ bookmarks r → a ∈ bookmarks p0 → False)
    as Hclash.
  { intros k r Hk Hr Hp0. apply (Hdisj a Hp0), declared_lookup. eauto. }
  destruct i as [|i], j as [|j]; simplify_eq/=; [done|exfalso; eauto..|].
  f_equal. by eapply IH.
Qed.

Section document.
Variable Y : Z.

Lemma diary_declared_once i j p q a :
  diary_pages Y !! i = Some p → diary_pages Y !! j = Some q →
  a ∈ bookmarks p → a ∈ bookmarks q → i = j.
Proof.
  apply declared_once. rewrite declared_anchors. apply anchors_NoDup.
Qed.

Lemma elem_of_anchors t :
  t ∈ anchors Y ↔
    (∃ m, 1 ≤ m ≤ 12 ∧ t = month_anchor m)
    ∨ (∃ m d, 1 ≤ m ≤ 12 ∧ 1 ≤ d ≤ days_in_month Y m ∧ t = day_anchor m d).
Proof.
  unfold anchors. rewrite elem_of_app, list_elem_of_bind. split.
  - intros [(m & -> & Hm%elem_of_range)%list_elem_of_fmap
           |(m & (d & -> & Hd%elem_of_range)%list_elem_of_fmap & Hm%elem_of_range)];
      [left|right].
    + exists m. split; [lia|done].
    + exists m, d. split; [lia|]. split; [lia|done].
  - intros [(m & Hm & ->)|(m & d & Hm & Hd & ->)]; [left|right].
    + apply list_elem_of_fmap. exists m. split; [done|apply elem_of_range; lia].
    + exists m. split; [|apply elem_of_range; lia].
      apply list_elem_of_fmap. exists d. split; [done|apply elem_of_range; lia].
Qed.

End document.

(** C1: across a full document build for any year in [1900,2100], no two
    distinct pages declare the same bookmark anchor, and every anchor that
    is the target of an emitted link -- these are month_m for m in 1..12
    and day_m_d for the days d of month m -- is declared via bookmarkPage
    by exactly one page. *)
Theorem anchors_unique_and_links_closed (Y : Z) :
  1900 ≤ Y ≤ 2100 →
  let doc := diary_pages Y in
  (* no anchor is declared twice, on one page or on two *)
  NoDup (declared doc)
  ∧ (∀ i j p q a,
       doc !! i = Some p → doc !! j = Some q →
       a ∈ bookmarks p → a ∈ bookmarks q → i = j)
  (* every link target is declared by exactly one page *)
  ∧ (∀ p t, p ∈ doc → t ∈ links p →
       ∃ i q, doc !! i = Some q ∧ t ∈ bookmarks q
              ∧ ∀ j q', doc !! j = Some q' → t ∈ bookmarks q' → j = i)
  (* the link targets are the month and day anchors, all of them *)
  ∧ (∀ t, (∃ p, p ∈ doc ∧ t ∈ links p) ↔
       (∃ m, 1 ≤ m ≤ 12 ∧ t = month_anchor m)
       ∨ (∃ m d, 1 ≤ m ≤ 12 ∧ 1 ≤ d ≤ days_in_month Y m ∧ t = day_anchor m d)).
Proof.
  intros _ doc. subst doc.
  assert (∀ t, (∃ p, p ∈ diary_pages Y ∧ t ∈ links p) ↔ t ∈ anchors Y) as Htargets.
  { intros t. rewrite <- targeted_anchors. unfold targeted.
    rewrite list_elem_of_bind. naive_solver. }
  split; [rewrite declared_anchors; apply anchors_NoDup|].
  split; [apply diary_declared_once|].
  split.
  - intros p t Hp Ht.
    assert (t ∈ declared (diary_pages Y)) as (i & q & Hi & Hq)%declared_lookup.
    { rewrite declared_anchors. apply Htargets. eauto. }
    exists i, q. split; [done|]. split; [done|].
    intros j q' Hj Hq'. by eapply diary_declared_once.
  - intros t. by rewrite Htargets, elem_of_anchors.
Qed.

Lemma anchors_unique_and_links_closed_witness :
  1900 ≤ 2024 ≤ 2100
  ∧ NoDup (declared (diary_pages 2024))
  ∧ (∀ p t, p ∈ diary_pages 2024 → t ∈ links p →
       ∃ i q, diary_pages 2024 !! i = Some q ∧ t ∈ bookmarks q
              ∧ ∀ j q', diary_pages 2024 !! j = Some q' → t ∈ bookmarks q' → j = i).
Proof.
  split; [lia|].
  destruct (anchors_unique_and_links_closed 2024) as (Hnd & _ & Hclosed & _); [lia|].
  split; [exact Hnd | exact Hclosed].
Defined.

(** ** Self-links *)

Lemma self_linked_false page :
  self_linked page = false ↔ ∀ a, a ∈ bookmarks page → a ∉ links page.
Proof.
  unfold self_linked. induction (bookmarks page) as [|b l IH]; simpl.
  - split; [intros _ a []%elem_of_nil | done].
  - rewrite orb_false_iff, IH, <- not_true_iff_false, memb_spec. split.
    + intros [Hb Hl] a [->|Ha]%elem_of_cons; auto.
    + intros Hl. split; [|intros a Ha]; apply Hl, elem_of_cons; auto.
Qed.

(** C2: for every page produced during a full document build (the cover
    page, each month page, each day page), the page's own anchor never
    appears among the link targets the page emits. The cover page, which
    is the first page, declares no anchor, and no link is named cover. *)
Theorem no_self_links (Y : Z) :
  1900 ≤ Y ≤ 2100 →
  (∀ page a, page ∈ diary_pages Y → a ∈ bookmarks page → a ∉ links page)
  ∧ (∃ cover, diary_pages Y !! 0%nat = Some cover
       ∧ pages_of create_cover_page = [cover]
       ∧ bookmarks cover = []
       ∧ "cover" ∉ links cover).
Proof.
  intros _. split.
  - intros page a Hpage. apply self_linked_false. revert page Hpage.
    apply Forall_forall.
    apply (diary_pages_ind (Forall (λ page, self_linked page = false))); compute_done.
  - apply (diary_pages_ind (λ doc, ∃ cover, doc !! 0%nat = Some cover
       ∧ pages_of create_cover_page = [cover]
       ∧ bookmarks cover = [] ∧ "cover" ∉ links cover));
      (eexists; split; [by vm_compute|]; split; [by vm_compute|];
       split; [by vm_compute|]; compute_done).
Qed.

Lemma no_self_links_witness :
  1900 ≤ 2024 ≤ 2100
  ∧ ∀ page a, page ∈ diary_pages 2024 → a ∈ bookmarks page → a ∉ links page.
Proof.
  split; [lia|]. apply (no_self_links 2024). lia.
Defined.

(** ** The month tabs of a day page *)

Lemma links_create_day_page month_num day_num :
  links (create_day_page month_num day_num) = links (draw_month_tabs (Some month_num)).
Proof.
  unfold create_day_page, links. rewrite !omap_app. simpl. by rewrite app_nil_r.
Qed.

(** C3, as stated, fails: the day page of March 14th emits no link to
    month_3, so not all 12 month links are emitted. *)
Lemma day_page_all_month_links_counterexample :
  ¬ (∀ i, 1 ≤ i ≤ 12 → month_anchor i ∈ links (create_day_page 3 14)).
Proof.
  intros Hall. specialize (Hall 3 ltac:(lia)). revert Hall. compute_done.
Qed.

(** C3, amended: for every day page (m, d), the month-tab sidebar emits
    the 11 links month_i for the months i other than m, in order; the tab
    of the page's own month m carries no link. *)
Theorem day_page_links_other_months (m d : Z) :
  1 ≤ m ≤ 12 →
  links (create_day_page m d) = (month_anchor <$> filter (λ i, i ≠ m) (range 1 13))
  ∧ length (links (create_day_page m d)) = 11%nat
  ∧ (month_anchor m ∉ links (create_day_page m d))
  ∧ ∀ i, 1 ≤ i ≤ 12 → i ≠ m → month_anchor i ∈ links (create_day_page m d).
Proof.
  intros Hm. rewrite links_create_day_page.
  assert (m ∈ range 1 13) as Hin by (apply elem_of_range; lia).
  vm_compute range in Hin.
  repeat (apply elem_of_cons in Hin as [->|Hin]);
    [..|by apply elem_of_nil in Hin];
    (split; [by vm_compute|]; split; [by vm_compute|]; split; [compute_done|];
     intros i Hi Hne;
     assert (i ∈ range 1 13) as Hi' by (apply elem_of_range; lia);
     vm_compute range in Hi';
     repeat (apply elem_of_cons in Hi' as [->|Hi']);
       [..|by apply elem_of_nil in Hi'];
     first [done | compute_done]).
Qed.

Lemma day_page_links_other_months_witness :
  1 ≤ 3 ≤ 12
  ∧ links (create_day_page 3 14) = (month_anchor <$> filter (λ i, i ≠ 3) (range 1 13))
  ∧ month_anchor 3 ∉ links (create_day_page 3 14).
Proof.
  split; [lia|].
  destruct (day_page_links_other_months 3 14) as (Heq & _ & Hown & _); [lia|].
  split; [exact Heq | exact Hown].
Defined.

(** ** The order of the pages *)

Lemma calendar_days_same_calendar year :
  calendar_days (same_calendar year) = calendar_days year.
Proof.
  unfold calendar_days. apply list_bind_ext; [|done].
  intros month. by rewrite days_in_month_same_calendar.
Qed.

Lemma page_sequence_same_calendar year :
  page_sequence (same_calendar year) = page_sequence year.
Proof. unfold page_sequence. by rewrite calendar_days_same_calendar. Qed.

Lemma create_page_same_calendar year id :
  create_page (same_calendar year) id = create_page year id.
Proof.
  destruct id; simpl; [done| |done].
  by rewrite !create_month_page_eq, monthrange_same_calendar.
Qed.

(** Each page of the document is the page of one creating call, in the
    order of the page sequence. *)
Lemma diary_pages_sequence year :
  Forall2 (λ page id, pages_of (create_page year id) = [page])
          (diary_pages year) (page_sequence year).
Proof.
  assert (Forall2 (λ page id, pages_of (create_page (same_calendar year) id) = [page])
            (diary_pages (same_calendar year)) (page_sequence (same_calendar year)))
    as Hrep.
  { unfold same_calendar. destruct (isleap year); compute_done. }
  rewrite diary_pages_same_calendar, page_sequence_same_calendar in Hrep.
  eapply Forall2_impl; [exact Hrep|]. intros page id; cbv beta.
  by rewrite create_page_same_calendar.
Qed.

(** Day of the year of a calendar day. *)
Lemma days_before_month_same_calendar year month :
  days_before_month (same_calendar year) month = days_before_month year month.
Proof.
  unfold days_before_month, same_calendar.
  change is_leap with isleap. by destruct (isleap year).
Qed.

Lemma calendar_days_day_of_year year :
  (λ md, days_before_month year md.1 + md.2) <$> calendar_days year
  = range 1 (total_days year + 1).
Proof.
  rewrite <- calendar_days_same_calendar.
  transitivity ((λ md, days_before_month (same_calendar year) md.1 + md.2)
                  <$> calendar_days (same_calendar year)).
  { apply list_fmap_ext. intros _ md _. by rewrite days_before_month_same_calendar. }
  unfold same_calendar, total_days. destruct (isleap year); by vm_compute.
Qed.

(** The days of the year come in chronological order, none skipped:
    their ordinals are consecutive, from that of January 1st on. *)
Lemma calendar_days_ordinals year :
  (λ md, ymd2ord year md.1 md.2) <$> calendar_days year
  = range (ymd2ord year 1 1) (ymd2ord year 1 1 + total_days year).
Proof.
  transitivity ((λ k, days_before_year year + k)
                  <$> ((λ md, days_before_month year md.1 + md.2)
                         <$> calendar_days year)).
  { rewrite <- list_fmap_compose. apply list_fmap_ext. intros _ md _; simpl.
    unfold ymd2ord. lia. }
  rewrite calendar_days_day_of_year. unfold range. rewrite <- list_fmap_compose.
  replace (ymd2ord year 1 1 + total_days year - ymd2ord year 1 1)
    with (total_days year + 1 - 1) by lia.
  apply list_fmap_ext. intros _ k _; simpl.
  unfold ymd2ord, days_before_month; simpl. lia.
Qed.

Lemma calendar_days_valid year month day :
  MINYEAR ≤ year ≤ MAXYEAR →
  (month, day) ∈ calendar_days year →
  date_of year month day = Some (Date year month day).
Proof.
  intros Hy (m & Hd & Hm%elem_of_range)%list_elem_of_bind.
  apply list_elem_of_fmap in Hd as (d & [= -> ->] & Hd%elem_of_range).
  apply date_of_valid; [done|lia..].
Qed.

(** The two loops of [generate_diary] run over the days of the year. *)
Lemma day_loop_calendar_days year : day_loop year = calendar_days year.
Proof.
  unfold day_loop, calendar_days. apply Forall_bind_ext, Forall_forall.
  intros month Hm%elem_of_range. rewrite monthrange_days by lia.
  generalize (range 1 (days_in_month year month + 1)). intros l.
  induction l as [|d l IH]; [done|]. simpl. by f_equal.
Qed.

Lemma length_calendar_days year :
  length (calendar_days year) = Z.to_nat (total_days year).
Proof.
  rewrite <- (length_fmap (λ md, days_before_month year md.1 + md.2)).
  rewrite calendar_days_day_of_year, length_range. f_equal. lia.
Qed.

(** The pages that the calls of the page creators make, for every year Y
    in [1900,2100]: the cover page once, then the 12 month pages in order,
    then one day page per calendar day in chronological order (months
    1..12, days 1..last day of the month); the number of day pages is 366
    if Y is a Gregorian leap year and 365 otherwise. *)
Lemma calendar_order (Y : Z) :
  1900 ≤ Y ≤ 2100 →
  let days := calendar_days Y in
  (* the pages, in order, are those of the creating calls *)
  Forall2 (λ page id, pages_of (create_page Y id) = [page])
    (diary_pages Y)
    (Cover :: (Month <$> range 1 13) ++ (uncurry Day <$> days))
  (* the loops run over the days 1..last of the months 1..12 *)
  ∧ day_loop Y = days
  ∧ (∀ m d, (m, d) ∈ days ↔ 1 ≤ m ≤ 12 ∧ 1 ≤ d ≤ days_in_month Y m)
  ∧ (∀ m, 1 ≤ m ≤ 12 → 28 ≤ days_in_month Y m ≤ 31)
  (* they are dates, in chronological order, none skipped *)
  ∧ (∀ m d, (m, d) ∈ days → date_of Y m d = Some (Date Y m d))
  ∧ (λ md, ymd2ord Y md.1 md.2) <$> days
    = range (ymd2ord Y 1 1) (ymd2ord Y 1 1 + Z.of_nat (length days))
  ∧ head days = Some (1, 1)
  ∧ last days = Some (12, 31)
  (* the day count *)
  ∧ (gregorian_leap Y → length days = 366%nat)
  ∧ (¬ gregorian_leap Y → length days = 365%nat)
  ∧ length (diary_pages Y) = (1 + 12 + length days)%nat.
Proof.
  intros HY; cbv zeta.
  assert (MINYEAR ≤ Y ≤ MAXYEAR) as Hrange by (unfold MINYEAR, MAXYEAR; lia).
  pose proof (diary_pages_sequence Y) as Hseq.
  pose proof (length_calendar_days Y) as Hlen.
  split; [exact Hseq|].
  split; [apply day_loop_calendar_days|].
  split.
  { intros m d. unfold calendar_days. rewrite list_elem_of_bind. split.
    - intros (m' & (d' & [= -> ->] & Hd%elem_of_range)%list_elem_of_fmap
                  & Hm%elem_of_range). lia.
    - intros [Hm Hd]. exists m. split; [|apply elem_of_range; lia].
      apply list_elem_of_fmap. exists d. split; [done|apply elem_of_range; lia]. }
  split; [intros m; apply days_in_month_ge|].
  split; [intros m d; by apply calendar_days_valid|].
  split.
  { rewrite calendar_days_ordinals.
    replace (Z.of_nat (length (calendar_days Y))) with (total_days Y); [done|].
    rewrite Hlen. unfold total_days. by destruct (isleap Y). }
  split.
  { rewrite <- calendar_days_same_calendar.
    unfold same_calendar. destruct (isleap Y); by vm_compute. }
  split.
  { rewrite <- calendar_days_same_calendar.
    unfold same_calendar. destruct (isleap Y); by vm_compute. }
  split.
  { intros Hleap%isleap_gregorian. rewrite Hlen. unfold total_days.
    by rewrite Hleap. }
  split.
  { intros Hleap. rewrite Hlen. unfold total_days.
    destruct (isleap Y) eqn:Heq; [|done].
    by apply isleap_gregorian in Heq. }
  apply Forall2_length in Hseq. rewrite Hseq. unfold page_sequence.
  cbn [length]. rewrite length_app, !length_fmap, length_range. lia.
Qed.

(** ** The run of the generator *)

Lemma season_background_lookup (month : Z) :
  ∃ image_path, SEASON_BACKGROUNDS !! get_season_from_month month = Some image_path.
Proof. unfold get_season_from_month. repeat case_bool_decide; by eexists. Qed.

Lemma draw_seasonal_background_spec use_images month loads :
  ∃ image_path,
    SEASON_BACKGROUNDS !! get_season_from_month month = Some image_path
    ∧ draw_seasonal_background use_images month loads
      = (if use_images && loads then inr (drawImage image_path)
         else draw_generated (get_season_from_month month),
         use_images && loads).
Proof.
  destruct (season_background_lookup month) as [image_path Hpath].
  exists image_path. split; [done|].
  unfold draw_seasonal_background. rewrite Hpath.
  by destruct use_images, loads.
Qed.

(** Of the generated drawings only the winter one raises. *)
Lemma draw_generated_raises (month : Z) :
  match draw_generated (get_season_from_month month) with
  | inl e => e = AttributeError "'Canvas' object has no attribute 'moveTo'"
             ∧ get_season_from_month month = "winter"
  | inr _ => get_season_from_month month ≠ "winter"
  end.
Proof.
  unfold draw_generated, get_season_from_month.
  do 3 (destruct (bool_decide (month ∈ _)); [by vm_compute|]). by vm_compute.
Qed.

(** *** Loops *)

Lemma for_each_app {A} (l1 l2 : list A) (body : A → run unit) g :
  for_each (l1 ++ l2) body g = (for_each l1 body ;;; for_each l2 body) g.
Proof.
  revert g. induction l1 as [|x l1 IH]; intros g; [reflexivity|].
  cbn [app for_each]. unfold run_bind in *.
  destruct (body x g) as [[e|[]] g1]; [reflexivity|]. apply IH.
Qed.

Lemma for_each_ext {A} (l : list A) (body1 body2 : A → run unit) g :
  (∀ x g, body1 x g = body2 x g) → for_each l body1 g = for_each l body2 g.
Proof.
  intros Hext. revert g. induction l as [|x l IH]; intros g; [reflexivity|].
  cbn [for_each]. unfold run_bind. rewrite Hext.
  destruct (body2 x g) as [[e|[]] g1]; [reflexivity|]. apply IH.
Qed.

Lemma for_each_fmap {A B} (f : A → B) (l : list A) (body : B → run unit) g :
  for_each (f <$> l) body g = for_each l (λ x, body (f x)) g.
Proof.
  revert g. induction l as [|x l IH]; intros g; [reflexivity|].
  cbn [fmap list_fmap for_each]. unfold run_bind.
  destruct (body (f x) g) as [[e|[]] g1]; [reflexivity|]. apply IH.
Qed.

Lemma for_each_nested {A B} (l : list A) (inner : A → list B)
    (body : A → B → run unit) g :
  for_each l (λ x, for_each (inner x) (body x)) g
  = for_each (x ← l; pair x <$> inner x) (λ p, body p.1 p.2) g.
Proof.
  revert g. induction l as [|x l IH]; intros g; [done|].
  rewrite bind_cons, for_each_app. cbn [for_each]. unfold run_bind.
  rewrite for_each_fmap. cbn [fst snd].
  destruct (for_each (inner x) _ g) as [[e|[]] g1]; [reflexivity|]. apply IH.
Qed.

Lemma day_loop_pairs year :
  day_loop year
  = month ← range 1 13; pair month <$> range 1 ((monthrange year month).2 + 1).
Proof.
  unfold day_loop. apply list_bind_ext; [|done]. intros month. cbv zeta.
  induction (range 1 ((monthrange year month).2 + 1)) as [|d l IH]; [done|].
  simpl. by f_equal.
Qed.

(** [generate_diary] runs its page creators one after the other. *)
Lemma generate_diary_jobs fs year g :
  generate_diary fs year g
  = run_jobs fs (page_jobs year)
      {| use_images := use_images g; pages_begun := pages_begun g; canvas := [] |}.
Proof.
  unfold generate_diary, run_jobs, page_jobs.
  unfold run_bind at 1. cbn [new_canvas].
  generalize {| use_images := use_images g; pages_begun := pages_begun g; canvas := [] |}.
  clear g. intros g. cbn [for_each fst snd]. unfold run_bind.
  destruct (page fs 6 create_cover_page g) as [[e|[]] g1]; [reflexivity|].
  rewrite for_each_app. unfold run_bind.
  rewrite for_each_fmap. cbn [fst snd].
  destruct (for_each (range 1 13) _ g1) as [[e|[]] g2]; [reflexivity|].
  rewrite for_each_nested, for_each_fmap, day_loop_pairs.
  apply for_each_ext. by intros [month day] g3.
Qed.

(** *** One page *)

Lemma page_spec fs month calls g :
  page fs month calls g
  = let serve := use_images g && image_loads fs (pages_begun g) in
    match (if serve then inr tt else
             match draw_generated (get_season_from_month month) with
             | inl e => inl e
             | inr _ => inr tt
             end) with
    | inl e => (inl e, {| use_images := serve; pages_begun := S (pages_begun g);
                          canvas := canvas g |})
    | inr _ => (inr tt, {| use_images := serve; pages_begun := S (pages_begun g);
                           canvas := canvas g ++ calls |})
    end.
Proof.
  unfold page, run_bind, seasonal_background, emit.
  destruct (draw_seasonal_background_spec (use_images g) month
              (image_loads fs (pages_begun g))) as (path & _ & ->).
  cbv zeta. destruct (use_images g && image_loads fs (pages_begun g)); [done|].
  by destruct (draw_generated (get_season_from_month month)).
Qed.

Lemma page_outcome fs month calls g :
  let serve := use_images g && image_loads fs (pages_begun g) in
  page fs month calls g
  = if negb serve && winter month
    then (inl no_moveTo,
          {| use_images := false; pages_begun := S (pages_begun g); canvas := canvas g |})
    else (inr tt,
          {| use_images := serve; pages_begun := S (pages_begun g);
             canvas := canvas g ++ calls |}).
Proof.
  cbv zeta. rewrite page_spec. cbv zeta. unfold winter.
  pose proof (draw_generated_raises month) as Hgen.
  destruct (use_images g && image_loads fs (pages_begun g)); [done|].
  destruct (draw_generated (get_season_from_month month)) as [e|b].
  - destruct Hgen as [-> Hwinter]. by rewrite bool_decide_eq_true_2.
  - by rewrite bool_decide_eq_false_2.
Qed.

(** *** A sequence of pages *)

Section jobs.
Variable fs : images.

Lemma run_jobs_cons job jobs g :
  run_jobs fs (job :: jobs) g
  = match page fs job.1 job.2 g with
    | (inl e, g1) => (inl e, g1)
    | (inr _, g1) => run_jobs fs jobs g1
    end.
Proof. unfold run_jobs. cbn [for_each]. unfold run_bind. by destruct (page _ _ _ _). Qed.

Lemma images_serve_step g calls k :
  images_serve fs
    {| use_images := use_images g && image_loads fs (pages_begun g);
       pages_begun := S (pages_begun g); canvas := calls |} k
  = images_serve fs g (S k).
Proof. unfold images_serve. simpl. by rewrite andb_assoc. Qed.

Lemma images_serve_mono g j k :
  (j ≤ k)%nat → images_serve fs g k = true → images_serve fs g j = true.
Proof.
  unfold images_serve. intros Hjk [Hu Hall]%andb_prop. rewrite Hu. simpl.
  apply forallb_forall. intros i Hi%in_seq.
  rewrite forallb_forall in Hall. apply Hall, in_seq. lia.
Qed.

Lemma images_serve_all g k :
  images_serve fs g k = true
  ↔ use_images g = true ∧ ∀ i, (i < k)%nat → image_loads fs (pages_begun g + i) = true.
Proof.
  unfold images_serve. rewrite andb_true_iff, forallb_forall.
  split; intros [Hu Hall]; (split; [done|]).
  - intros i Hi. apply Hall, in_seq. lia.
  - intros n Hn%in_seq. replace n with (pages_begun g + (n - pages_begun g))%nat by lia.
    apply Hall. lia.
Qed.

(** What a sequence of pages does, whatever is on disk: it gets through
    when the images serve every winter page, and otherwise raises at the
    first winter page that falls back to the generated drawing, with the
    pages before it on the canvas. *)
Lemma run_jobs_spec jobs : ∀ g,
  match run_jobs fs jobs g with
  | (inr _, g') =>
      g' = {| use_images := images_serve fs g (length jobs);
              pages_begun := pages_begun g + length jobs;
              canvas := canvas g ++ concat jobs.*2 |}
      ∧ ∀ i job, jobs !! i = Some job → winter job.1 = true →
          images_serve fs g (S i) = true
  | (inl e, g') =>
      e = no_moveTo
      ∧ ∃ i job,
          jobs !! i = Some job ∧ winter job.1 = true
          ∧ images_serve fs g (S i) = false
          ∧ g' = {| use_images := false;
                    pages_begun := pages_begun g + S i;
                    canvas := canvas g ++ concat (take i jobs).*2 |}
  end.
Proof.
  induction jobs as [|[month calls] jobs IH]; intros g.
  - unfold run_jobs, images_serve; simpl. split; [|done].
    destruct g; simpl. by rewrite andb_true_r, Nat.add_0_r, app_nil_r.
  - rewrite run_jobs_cons. cbn [fst snd]. rewrite page_outcome. cbv zeta.
    destruct (negb _ && winter month) eqn:Hfall.
    + apply andb_prop in Hfall as [Hserve%negb_true_iff Hwinter].
      split; [done|]. exists 0%nat, (month, calls). split_and!; try done.
      * unfold images_serve; simpl. by rewrite andb_true_r.
      * simpl. by rewrite app_nil_r, Nat.add_1_r.
    + specialize (IH {| use_images := use_images g && image_loads fs (pages_begun g);
                        pages_begun := S (pages_begun g);
                        canvas := canvas g ++ calls |}).
      destruct (run_jobs fs jobs _) as [[e|[]] g'].
      * destruct IH as (-> & i & job & Hi & Hwinter & Hserve & ->).
        split; [done|]. exists (S i), job. split_and!; try done.
        -- by rewrite <- images_serve_step with (calls := canvas g ++ calls).
        -- simpl. f_equal; [lia|]. by rewrite <- app_assoc.
      * destruct IH as (-> & Hwinters). split.
        -- rewrite images_serve_step. simpl. f_equal; [lia|]. by rewrite <- app_assoc.
        -- intros [|i] job Hi Hwinter.
           ++ injection Hi as <-. simpl in Hwinter. rewrite Hwinter, andb_true_r in Hfall.
              apply negb_false_iff in Hfall.
              unfold images_serve; simpl. by rewrite andb_true_r.
           ++ rewrite <- images_serve_step with (calls := canvas g ++ calls).
              by eapply Hwinters.
Qed.

(** A sequence that ends with a winter page gets through exactly when
    the images serve all of its pages. *)
Lemma run_jobs_ends_in_winter jobs month calls g :
  winter month = true →
  let all := jobs ++ [(month, calls)] in
  if images_serve fs g (length all)
  then run_jobs fs all g
       = (inr tt, {| use_images := true;
                     pages_begun := pages_begun g + length all;
                     canvas := canvas g ++ concat all.*2 |})
  else ∃ g' i, run_jobs fs all g = (inl no_moveTo, g')
         ∧ use_images g' = false
         ∧ (i < length all)%nat
         ∧ canvas g' = canvas g ++ concat (take i all).*2.
Proof.
  intros Hwinter all.
  pose proof (run_jobs_spec all g) as Hspec.
  destruct (run_jobs fs all g) as [[e|[]] g'].
  - destruct Hspec as (-> & i & job & Hi & Hw & Hserve & ->).
    apply lookup_lt_Some in Hi.
    destruct (images_serve fs g (length all)) eqn:Hall.
    + apply (images_serve_mono g (S i)) in Hall; [congruence|lia].
    + eexists _, i. split_and!; try done. 
  - destruct Hspec as (-> & Hwinters).
    assert (images_serve fs g (length all) = true) as Hall.
    { subst all. rewrite length_app, Nat.add_1_r.
      apply (Hwinters (length jobs) (month, calls)); [|done].
      by rewrite lookup_app_r, Nat.sub_diag by lia. }
    by rewrite Hall.
Qed.

End jobs.

(** *** The diary *)

Lemma concat_jobs {A} (job : A → Z * list canvas_op) (l : list A) :
  concat (job <$> l).*2 = l ≫= (λ x, (job x).2).
Proof.
  induction l as [|x l IH]; [done|].
  rewrite !fmap_cons, concat_cons, bind_cons. by f_equal.
Qed.

Lemma page_jobs_calls year : concat (page_jobs year).*2 = diary_calls year.
Proof.
  unfold page_jobs, diary_calls.
  rewrite fmap_cons, fmap_app, concat_cons, concat_app, !concat_jobs.
  cbn [snd]. do 2 f_equal. apply list_bind_ext; [|done]. by intros [month day].
Qed.

Lemma length_page_jobs year : length (page_jobs year) = length (page_sequence year).
Proof.
  unfold page_jobs, page_sequence. cbn [length].
  by rewrite !length_app, !length_fmap, day_loop_calendar_days.
Qed.

Lemma page_jobs_end_in_winter year :
  ∃ jobs, page_jobs year = jobs ++ [(12, create_day_page 12 31)].
Proof.
  assert (last (day_loop year) = Some (12, 31)) as [days Hdays]%last_Some.
  { rewrite <- day_loop_same_calendar. unfold same_calendar.
    destruct (isleap year); by vm_compute. }
  unfold page_jobs. rewrite Hdays, fmap_app. cbn [fmap list_fmap].
  eexists. rewrite app_assoc, app_comm_cons. reflexivity.
Qed.

(** How a run of [generate_diary] ends, whatever is on disk. *)
Lemma generate_diary_outcome fs year g :
  if images_serve fs g (length (page_sequence year))
  then generate_diary fs year g
       = (inr tt, {| use_images := true;
                     pages_begun := pages_begun g + length (page_sequence year);
                     canvas := diary_calls year |})
  else ∃ g', generate_diary fs year g = (inl no_moveTo, g') ∧ use_images g' = false.
Proof.
  rewrite generate_diary_jobs.
  destruct (page_jobs_end_in_winter year) as [jobs Hjobs].
  pose proof (run_jobs_ends_in_winter fs jobs 12 (create_day_page 12 31)
                {| use_images := use_images g; pages_begun := pages_begun g;
                   canvas := [] |} eq_refl) as Hrun.
  cbv zeta in Hrun. rewrite <- Hjobs, length_page_jobs, page_jobs_calls in Hrun.
  change (images_serve fs {| use_images := use_images g; pages_begun := pages_begun g;
                             canvas := [] |})
    with (images_serve fs g) in Hrun.
  destruct (images_serve fs g (length (page_sequence year))); [exact Hrun|].
  destruct Hrun as (g' & i & Hrun & Hoff & _). by exists g'.
Qed.

(** Without the image files the cover (summer) is drawn and the January
    page raises. *)
Lemma generate_diary_without_images fs year g :
  use_images g = false →
  generate_diary fs year g
  = (inl no_moveTo,
     {| use_images := false; pages_begun := pages_begun g + 2;
        canvas := create_cover_page |}).
Proof.
  intros Hoff. rewrite generate_diary_jobs. unfold page_jobs.
  change (range 1 13) with (1 :: range 2 13). rewrite fmap_cons.
  rewrite run_jobs_cons, page_outcome. cbn [fst snd use_images pages_begun canvas].
  rewrite Hoff. cbn [andb negb]. change (winter 6) with false. cbv iota.
  rewrite <- app_comm_cons, run_jobs_cons, page_outcome.
  cbn [fst snd use_images pages_begun canvas andb negb].
  change (winter 1) with true. cbv iota. do 2 f_equal. lia.
Qed.

(** C6: the claim is right and the code is wrong. With the four image
    files on disk and every load succeeding, [generate_diary] emits the
    cover page once, then the 12 month pages in order, then one day page
    per calendar day in chronological order, 366 or 365 of them. In every
    other run the generated winter drawing raises [AttributeError]
    ([c.moveTo] on a canvas); without the image files this happens on the
    January month page, when the canvas holds the cover page alone: no
    month page, no day page. *)
Theorem generate_diary_stops_at_generated_winter (Y : Z) (fs : images) :
  1900 ≤ Y ≤ 2100 →
  let start := new_generator fs in
  (* every image loads: the run gets through, and its pages are the claim's *)
  (images_serve fs start (length (page_sequence Y)) = true →
   ∃ g, generate_diary fs Y start = (inr tt, g)
        ∧ canvas g = diary_calls Y
        ∧ in_calendar_order Y (pages_of (canvas g)))
  (* otherwise the run raises *)
  ∧ (images_serve fs start (length (page_sequence Y)) = false →
     ∃ g, generate_diary fs Y start = (inl no_moveTo, g))
  (* without the image files: on the January page, after the cover *)
  ∧ (images_exist fs = false →
     ∃ g, generate_diary fs Y start = (inl no_moveTo, g)
          ∧ canvas g = create_cover_page
          ∧ length (pages_of (canvas g)) = 1%nat
          ∧ ¬ in_calendar_order Y (pages_of (canvas g))).
Proof.
  intros HY start. split_and!.
  - intros Hserve. pose proof (generate_diary_outcome fs Y start) as Hrun.
    rewrite Hserve in Hrun. eexists. split; [exact Hrun|]. split; [done|].
    apply (calendar_order Y HY).
  - intros Hserve. pose proof (generate_diary_outcome fs Y start) as Hrun.
    rewrite Hserve in Hrun. destruct Hrun as (g & Hrun & _). by exists g.
  - intros Hfiles. eexists. split; [by apply generate_diary_without_images|].
    cbn [canvas]. split; [done|]. split; [done|].
    intros (_ & _ & _ & _ & _ & _ & _ & _ & _ & _ & Hlen).
    change (length (pages_of create_cover_page)) with 1%nat in Hlen. lia.
Qed.

Lemma generate_diary_stops_at_generated_winter_witness :
  1900 ≤ 2024 ≤ 2100
  ∧ images_exist (Images false (λ _, true)) = false
  ∧ ∃ g, generate_diary (Images false (λ _, true)) 2024
           (new_generator (Images false (λ _, true))) = (inl no_moveTo, g)
       ∧ length (pages_of (canvas g)) = 1%nat.
Proof.
  assert (1900 ≤ 2024 ≤ 2100) as HY by lia.
  split; [exact HY|]. split; [reflexivity|].
  destruct (generate_diary_stops_at_generated_winter 2024 (Images false (λ _, true)) HY)
    as (_ & _ & Hfiles).
  destruct (Hfiles eq_refl) as (g & Hrun & _ & Hlen & _).
  exists g. split; [exact Hrun | exact Hlen].
Defined.

(** ** Strings: [split] and [join] *)

Section strings.
Local Arguments String.append : simpl nomatch.
Implicit Types s w : string.
Implicit Types ws : list string.

Lemma append_nil_r s : s +:+ EmptyString = s.
Proof. induction s as [|c s IH]; simpl; by f_equal. Qed.

Lemma append_assoc s1 s2 s3 : (s1 +:+ s2) +:+ s3 = s1 +:+ (s2 +:+ s3).
Proof. induction s1 as [|c s1 IH]; simpl; by f_equal. Qed.

Lemma append_empty s1 s2 : s1 +:+ s2 = EmptyString → s1 = EmptyString.
Proof. by destruct s1. Qed.

Lemma no_space_app s1 s2 : no_space (s1 +:+ s2) ↔ no_space s1 ∧ no_space s2.
Proof. induction s1 as [|c s1 IH]; simpl; [|rewrite IH]; tauto. Qed.

(** What [split_go] returns are words, if what it has gathered is one. *)
Lemma split_go_words s : ∀ w, no_space w → Forall is_word (split_go w s).
Proof.
  induction s as [|c s IH]; intros w Hw; simpl.
  - destruct w; [constructor|]. constructor; [by split|constructor].
  - destruct (isspace c) eqn:Hc.
    + destruct w; [by apply IH|].
      constructor; [by split|]. by apply IH.
    + apply IH, no_space_app. simpl. tauto.
Qed.

Lemma split_words s : Forall is_word (split s).
Proof. by apply split_go_words. Qed.

(** [split_go] runs through a word without cutting it. *)
Lemma split_go_app w : ∀ acc rest,
  no_space w → split_go acc (w +:+ rest) = split_go (acc +:+ w) rest.
Proof.
  induction w as [|c w IH]; intros acc rest Hw; simpl.
  - by rewrite append_nil_r.
  - destruct Hw as [-> Hw]. rewrite IH by done. by rewrite append_assoc.
Qed.

Lemma split_word w : is_word w → split w = [w].
Proof.
  intros [Hne Hw]. unfold split.
  rewrite <- (append_nil_r w) at 1. rewrite split_go_app by done. simpl.
  by destruct w.
Qed.

(** Splitting the joined words gives the words back. *)
Lemma split_join ws : Forall is_word ws → split (join " " ws) = ws.
Proof.
  induction 1 as [|w ws Hw Hws IH]; [done|].
  destruct ws as [|w' ws]; [by apply split_word|].
  change (join " " (w :: w' :: ws)) with (w +:+ " " +:+ join " " (w' :: ws)).
  unfold split. rewrite split_go_app by apply Hw. simpl.
  destruct Hw as [Hne _]. destruct w; [done|]. f_equal. exact IH.
Qed.

Lemma join_nonempty ws : ws ≠ [] → Forall is_word ws → join " " ws ≠ EmptyString.
Proof.
  intros Hne Hws. destruct Hws as [|w ws [Hw _] _]; [done|].
  destruct ws; simpl; [done|]. by intros ?%append_empty.
Qed.

End strings.

(** ** Word wrapping *)

Section wrapping.
Variable fits : nat → bool.

Lemma tight_short group : (length group ≤ 1)%nat → tight fits group.
Proof. intros Hshort Hlen. lia. Qed.

Lemma wrap_step_inv processed st word :
  wrap_inv fits processed st → wrap_inv fits (processed ++ [word]) (wrap_step fits st word).
Proof.
  destruct st as [lines current_line].
  intros (groups & Hlines & Hne & Hwords & Htight & Hcur); simpl in *.
  unfold wrap_step.
  destruct (fits (String.length (join " " (current_line ++ [word])))) eqn:Hfits.
  - exists groups; simpl. split_and!; try done.
    + by rewrite app_assoc, Hwords.
    + by intros _.
  - destruct current_line as [|w current_line].
    + exists groups; simpl. split_and!; try done.
      * rewrite app_nil_r in Hwords. by rewrite Hwords.
      * apply tight_short; simpl; lia.
    + exists (groups ++ [w :: current_line]); simpl. split_and!.
      * by rewrite fmap_app, Hlines.
      * apply Forall_app. by repeat constructor.
      * rewrite concat_app; simpl. rewrite app_nil_r, <- Hwords.
        by rewrite <- !app_assoc.
      * apply Forall_app. by repeat constructor.
      * apply tight_short; simpl; lia.
Qed.

Lemma wrap_fold_inv words : ∀ processed st,
  wrap_inv fits processed st →
  wrap_inv fits (processed ++ words) (foldl (wrap_step fits) st words).
Proof.
  induction words as [|word words IH]; intros processed st Hst; simpl.
  - by rewrite app_nil_r.
  - replace (processed ++ word :: words) with ((processed ++ [word]) ++ words)
      by by rewrite <- app_assoc.
    by apply IH, wrap_step_inv.
Qed.

(** The lines are the words of the text, cut into groups that are not
    empty, each joined by single spaces. *)
Lemma wrap_text_groups text :
  ∃ groups : list (list string),
    wrap_text_with fits text = join " " <$> groups
    ∧ Forall (λ g, g ≠ []) groups
    ∧ concat groups = split text
    ∧ Forall (tight fits) groups.
Proof.
  unfold wrap_text_with.
  assert (wrap_inv fits [] ([], [])) as Hinit.
  { exists []. split_and!; try done. apply tight_short; simpl; lia. }
  apply (wrap_fold_inv (split text)) in Hinit. simpl in Hinit.
  destruct (foldl (wrap_step fits) ([], []) (split text)) as [lines current_line].
  destruct Hinit as (groups & Hlines & Hne & Hwords & Htight & Hcur); simpl in *.
  destruct current_line as [|w current_line].
  - exists groups. rewrite app_nil_r in Hwords. done.
  - exists (groups ++ [w :: current_line]). split_and!.
    + by rewrite fmap_app, Hlines.
    + apply Forall_app. by repeat constructor.
    + rewrite concat_app; simpl. by rewrite app_nil_r.
    + apply Forall_app. by repeat constructor.
Qed.

Lemma groups_words (groups : list (list string)) text :
  concat groups = split text → Forall (Forall is_word) groups.
Proof.
  intros Hwords. pose proof (split_words text) as Hall.
  rewrite <- Hwords in Hall. clear Hwords.
  induction groups as [|g groups IH]; [done|].
  simpl in Hall. apply Forall_app in Hall as [? ?]. constructor; auto.
Qed.

End wrapping.

Lemma split_joined_groups (groups : list (list string)) :
  Forall (Forall is_word) groups →
  (join " " <$> groups) ≫= split = concat groups.
Proof.
  induction 1 as [|g groups Hg _ IH]; [done|].
  rewrite fmap_cons, bind_cons, IH, split_join by done. done.
Qed.

(** C7: for every text and every width test (every max_width and
    font_size), [wrap_text] returns a finite sequence of non-empty lines,
    and the words of the lines, concatenated in order, are exactly
    [text.split()]: no word is split, dropped, duplicated or reordered. *)
Theorem wrap_text_round_trip (fits : nat → bool) (text : string) :
  let lines := wrap_text_with fits text in
  Forall (λ line, line ≠ EmptyString) lines
  ∧ lines ≫= split = split text
  ∧ ∃ groups : list (list string),
      lines = join " " <$> groups
      ∧ concat groups = split text
      ∧ Forall (λ g, g ≠ []) groups.
Proof.
  intros lines. subst lines.
  destruct (wrap_text_groups fits text) as (groups & -> & Hne & Hwords & _).
  pose proof (groups_words groups text Hwords) as Hall.
  split_and!.
  - apply Forall_fmap, Forall_forall. intros g Hg; simpl.
    rewrite Forall_forall in Hne, Hall. apply join_nonempty; auto.
  - by rewrite split_joined_groups.
  - by exists groups.
Qed.

(** A line of the result is a group of words, joined, and tight. *)
Lemma wrap_text_line (fits : nat → bool) (text line : string) :
  line ∈ wrap_text_with fits text →
  ∃ group : list string,
    line = join " " group ∧ group ≠ [] ∧ Forall is_word group
    ∧ split line = group ∧ tight fits group.
Proof.
  destruct (wrap_text_groups fits text) as (groups & -> & Hne & Hwords & Htight).
  pose proof (groups_words groups text Hwords) as Hall.
  intros (g & -> & Hg)%list_elem_of_fmap.
  rewrite Forall_forall in Hne, Hall, Htight.
  exists g. split_and!; auto. by apply split_join, Hall.
Qed.

(** C10: every line that [wrap_text] returns with two or more words
    passes the width test [len(line) * font_size * 0.6 <= max_width]; a
    line that fails it consists of a single word, whose own length is over
    the budget. *)
Theorem wrap_text_width_budget (fits : nat → bool) (text line : string) :
  line ∈ wrap_text_with fits text →
  ((2 ≤ length (split line))%nat → fits (String.length line) = true)
  ∧ (fits (String.length line) = false → split line = [line] ∧ is_word line).
Proof.
  intros (g & -> & Hne & Hall & -> & Htight)%wrap_text_line.
  split; [exact Htight|].
  intros Hfails. destruct g as [|w [|w' g]]; [done| |].
  - apply Forall_cons in Hall as [Hw _]. done.
  - rewrite Htight in Hfails; [done|simpl; lia].
Qed.

Lemma wrap_text_width_budget_witness :
  "aa bb" ∈ wrap_text_with (λ n, n <=? 5)%nat "aa bb cc"
  ∧ ((2 ≤ length (split "aa bb"))%nat → (String.length "aa bb" <=? 5)%nat = true)
  ∧ ((String.length "aa bb" <=? 5)%nat = false
     → split "aa bb" = ["aa bb"] ∧ is_word "aa bb").
Proof.
  split; [compute_done|].
  apply (wrap_text_width_budget (λ n, n <=? 5)%nat "aa bb cc" "aa bb").
  compute_done.
Defined.

(** ** Quote rotation *)

Section quotes.
Variable quotes : list string.
Hypothesis quotes_NoDup : NoDup quotes.
Hypothesis quotes_nonempty : quotes ≠ [].

Implicit Types used : gset string.

Lemma random_choice_elem {A} (r : nat) (l : list A) :
  l ≠ [] → ∃ x, random_choice r l = Some x ∧ x ∈ l.
Proof.
  intros Hl. unfold random_choice.
  destruct (lookup_lt_is_Some_2 l (r `mod` length l)%nat) as [x Hx].
  { apply Nat.mod_upper_bound. by destruct l. }
  exists x. split; [done|]. by eapply list_elem_of_lookup_2.
Qed.

(** While some quote is unused, the call returns an unused quote and
    records it. *)
Lemma get_unique_quote_fresh used r :
  (size used < length quotes)%nat → used ⊆ list_to_set quotes →
  ∃ quote, get_unique_quote_from quotes used r = Some (quote, {[quote]} ∪ used)
           ∧ quote ∈ quotes ∧ quote ∉ used.
Proof.
  intros Hsize Hsub. unfold get_unique_quote_from.
  destruct (filter (λ q, q ∉ used) quotes) as [|q available] eqn:Havail.
  - exfalso.
    assert (list_to_set quotes ⊆ used) as Hall.
    { intros q Hq%elem_of_list_to_set. destruct (decide (q ∈ used)); [done|].
      by destruct (filter_nil_not_elem_of _ _ q Havail). }
    apply subseteq_size in Hall. rewrite size_list_to_set in Hall by done. lia.
  - destruct (random_choice_elem r (q :: available)) as (quote & -> & Hin); [done|].
    rewrite <- Havail in Hin. apply list_elem_of_filter in Hin as [? ?].
    exists quote. by simpl.
Qed.

(** Once every quote is used, the call clears the used-set and draws
    from the full list. *)
Lemma get_unique_quote_reset used r :
  list_to_set quotes ⊆ used →
  ∃ quote, get_unique_quote_from quotes used r = Some (quote, {[quote]})
           ∧ quote ∈ quotes.
Proof.
  intros Hall. unfold get_unique_quote_from.
  destruct (filter (λ q, q ∉ used) quotes) as [|q available] eqn:Havail.
  - destruct (random_choice_elem r quotes) as (quote & -> & Hin); [done|].
    exists quote. simpl. by rewrite (right_id_L ∅ (∪)).
  - exfalso.
    assert (q ∈ filter (λ q, q ∉ used) quotes) as [Hq Hin]%list_elem_of_filter
      by (rewrite Havail; left).
    apply Hq, Hall, elem_of_list_to_set, Hin.
Qed.

(** Calls made while unused quotes remain: all succeed, and return
    distinct quotes that were unused before. *)
Lemma quote_calls_fresh draws : ∀ used,
  (size used + length draws ≤ length quotes)%nat →
  used ⊆ list_to_set quotes →
  ∃ returned,
    quote_calls quotes used draws = Some (returned, used ∪ list_to_set returned)
    ∧ length returned = length draws
    ∧ NoDup returned
    ∧ ∀ q, q ∈ returned → q ∈ quotes ∧ q ∉ used.
Proof.
  induction draws as [|r draws IH]; intros used Hsize Hsub; simpl in *.
  - exists []. split_and!; [|done|constructor|by intros q ?%elem_of_nil].
    simpl. by rewrite (right_id_L ∅ (∪)).
  - destruct (get_unique_quote_fresh used r) as (quote & -> & Hin & Hfresh);
      [lia|done|]. simpl.
    destruct (IH ({[quote]} ∪ used)) as (returned & -> & Hlen & Hnd & Hret).
    { rewrite size_union, size_singleton by set_solver. lia. }
    { apply union_subseteq. split; [|done].
      apply singleton_subseteq_l, elem_of_list_to_set, Hin. }
    simpl. exists (quote :: returned). split_and!.
    + do 2 f_equal. simpl. set_solver.
    + simpl. by rewrite Hlen.
    + constructor; [|done]. intros Hq. apply Hret in Hq as [_ Hq]. set_solver.
    + intros q [->|Hq]%elem_of_cons; [done|].
      apply Hret in Hq as [? Hq]. split; [done|set_solver].
Qed.

(** A full round: as many calls as there are quotes, from an empty
    used-set, return every quote once; the next call starts over. *)
Lemma quote_round draws :
  length draws = length quotes →
  ∃ returned used,
    quote_calls quotes ∅ draws = Some (returned, used)
    ∧ length returned = length quotes
    ∧ NoDup returned
    ∧ returned ≡ₚ quotes
    ∧ used = list_to_set quotes
    ∧ ∀ r, ∃ quote,
        get_unique_quote_from quotes used r = Some (quote, {[quote]})
        ∧ quote ∈ returned.
Proof.
  intros Hdraws.
  destruct (quote_calls_fresh draws ∅) as (returned & Hcalls & Hlen & Hnd & Hret).
  { rewrite size_empty. lia. }
  { set_solver. }
  assert (returned ≡ₚ quotes) as Hperm.
  { apply submseteq_length_Permutation; [|lia].
    apply NoDup_submseteq; [done|]. intros q Hq. by apply Hret. }
  assert (∅ ∪ list_to_set returned = (list_to_set quotes : gset string)) as Hused.
  { rewrite (left_id_L ∅ (∪)). apply set_eq. intros q.
    by rewrite !elem_of_list_to_set, Hperm. }
  exists returned, (list_to_set quotes). rewrite <- Hused at 1.
  split_and!; [done|lia|done|done|done|].
  intros r. destruct (get_unique_quote_reset (list_to_set quotes) r)
    as (quote & Hcall & Hin); [done|].
  exists quote. split; [done|]. by rewrite Hperm.
Qed.

End quotes.

Lemma WISDOM_QUOTES_NoDup : NoDup WISDOM_QUOTES.
Proof. compute_done. Qed.

(** C8: starting from an empty used-set, for every sequence of random
    draws, the first N calls of [get_unique_quote] (N the length of the
    quote list) return pairwise distinct quotes; after the Nth call the
    used-set is the full quote list; the (N+1)th call clears the used-set
    first, so that it holds the returned quote alone, and the quote it
    returns repeats an earlier one. *)
Theorem quote_rotation (draws : list nat) :
  length draws = length WISDOM_QUOTES →
  ∃ (returned : list string) (used : gset string),
    quote_calls WISDOM_QUOTES ∅ draws = Some (returned, used)
    ∧ length returned = length WISDOM_QUOTES
    ∧ NoDup returned
    ∧ used = list_to_set WISDOM_QUOTES
    ∧ ∀ r, ∃ quote,
        get_unique_quote used r = Some (quote, {[quote]})
        ∧ quote ∈ returned.
Proof.
  intros Hdraws.
  destruct (quote_round WISDOM_QUOTES WISDOM_QUOTES_NoDup ltac:(done) draws Hdraws)
    as (returned & used & Hcalls & Hlen & Hnd & _ & Hused & Hnext).
  by exists returned, used.
Qed.

Lemma quote_rotation_witness :
  length (seq 0 40) = length WISDOM_QUOTES
  ∧ ∃ (returned : list string) (used : gset string),
      quote_calls WISDOM_QUOTES ∅ (seq 0 40) = Some (returned, used)
      ∧ length returned = length WISDOM_QUOTES
      ∧ NoDup returned
      ∧ used = list_to_set WISDOM_QUOTES
      ∧ ∀ r, ∃ quote,
          get_unique_quote used r = Some (quote, {[quote]})
          ∧ quote ∈ returned.
Proof.
  split; [reflexivity|]. apply (quote_rotation (seq 0 40)). reflexivity.
Defined.

(** ** Password entry *)

Section attempts.
Variable min_length : Z.

Lemma attempt_failed tty tty' :
  failed_attempt min_length tty tty' → attempt min_length tty = (Continue, tty').
Proof.
  unfold attempt. intros [p t Hlen | p t Hlen Hstrip | p c t [Hlen Hstrip] Hne]; simpl.
  - by rewrite (proj2 (Z.ltb_lt _ _)).
  - rewrite (proj2 (Z.ltb_ge _ _)) by done. by rewrite bool_decide_eq_true_2.
  - rewrite (proj2 (Z.ltb_ge _ _)) by done.
    rewrite bool_decide_eq_false_2 by done. by rewrite bool_decide_eq_true_2.
Qed.

Lemma attempt_cancelled tty tty' :
  cancelled_attempt min_length tty tty' →
  attempt min_length tty = (Raise entry_cancelled, tty').
Proof.
  unfold attempt. intros [t | p t [Hlen Hstrip]]; simpl; [done|].
  rewrite (proj2 (Z.ltb_ge _ _)) by done. by rewrite bool_decide_eq_false_2.
Qed.

Lemma attempt_valid password tty :
  valid_password min_length password →
  attempt min_length (Typed password :: Typed password :: tty) = (Return password, tty).
Proof.
  intros [Hlen Hstrip]. unfold attempt; simpl.
  rewrite (proj2 (Z.ltb_ge _ _)) by done.
  rewrite bool_decide_eq_false_2 by done.
  rewrite bool_decide_eq_false_2 by (by intros []). done.
Qed.

(** What an attempt did, read off its outcome. *)
Lemma attempt_inv tty o tty' :
  attempt min_length tty = (o, tty') →
  (length tty ≤ length tty' + 2)%nat
  ∧ match o with
    | Return password =>
        valid_password min_length password
        ∧ tty = Typed password :: Typed password :: tty'
    | Raise e => e = entry_cancelled ∧ cancelled_attempt min_length tty tty'
    | Continue => True
    end.
Proof.
  unfold attempt, prompt, handle, entry_cancelled. intros H.
  repeat (first [ case_match | case_bool_decide ]; simplify_eq/=);
    (split; [lia|]); try done.
  all: try match goal with H : ¬ _ ≠ _ |- _ => apply dec_stable in H as -> end.
  - split; [done|]. constructor.
  - split; [done|]. constructor. split; [lia|done].
  - split; [|done]. split; [lia|done].
Qed.

End attempts.

Section get_password.
Variables min_length max_attempts : Z.

Lemma get_password_loop_step attempts tty :
  get_password_loop min_length max_attempts attempts tty =
  if decide (attempts < max_attempts) then
    match attempt min_length tty with
    | (Return password, tty') => (inr password, tty')
    | (Raise e, tty') => (inl e, tty')
    | (Continue, tty') =>
        get_password_loop min_length max_attempts (attempts + 1) tty'
    end
  else (inl (max_attempts_reached max_attempts), tty).
Proof.
  simp get_password_loop.
  destruct (decide (attempts < max_attempts)); simpl; [|done].
  by destruct (attempt min_length tty) as [[] ?].
Qed.

(** The budget is spent: the loop is left with the [ValueError]. *)
Lemma get_password_loop_exhausted attempts tty :
  max_attempts ≤ attempts →
  get_password_loop min_length max_attempts attempts tty
  = (inl (max_attempts_reached max_attempts), tty).
Proof.
  intros Hge. rewrite get_password_loop_step.
  destruct (decide (attempts < max_attempts)); [lia|done].
Qed.

(** Failed attempts within the budget are retried. *)
Lemma get_password_loop_failed n tty tty' :
  failed_attempts min_length n tty tty' →
  ∀ attempts, attempts + Z.of_nat n ≤ max_attempts →
  get_password_loop min_length max_attempts attempts tty
  = get_password_loop min_length max_attempts (attempts + Z.of_nat n) tty'.
Proof.
  induction 1 as [tty | n tty tty' tty'' Hfail _ IH]; intros attempts Hle.
  - by rewrite Z.add_0_r.
  - rewrite get_password_loop_step.
    destruct (decide (attempts < max_attempts)); [|lia].
    rewrite (attempt_failed _ _ _ Hfail), IH by lia. f_equal. lia.
Qed.

(** Whatever the terminal holds: a password that is returned is valid,
    an exception that leaves is one of the two [ValueError]s, and at
    most two prompts are used per attempt of the budget. *)
Lemma get_password_loop_inv attempts tty r tty' :
  get_password_loop min_length max_attempts attempts tty = (r, tty') →
  (length tty ≤ length tty' + 2 * Z.to_nat (max_attempts - attempts))%nat
  ∧ match r with
    | inr password => valid_password min_length password ∧ attempts < max_attempts
    | inl e => e = entry_cancelled ∨ e = max_attempts_reached max_attempts
    end.
Proof.
  remember (Z.to_nat (max_attempts - attempts)) as k eqn:Hk.
  revert attempts tty Hk. induction k as [|k IH]; intros attempts tty Hk;
    rewrite get_password_loop_step;
    destruct (decide (attempts < max_attempts)) as [Hlt|Hge]; try lia.
  - intros [= <- <-]. split; [lia|by right].
  - destruct (attempt min_length tty) as [o tty1] eqn:Hattempt.
    apply attempt_inv in Hattempt as [Hlen Ho].
    destruct o as [password| |e].
    + intros [= <- <-]. split; [lia|]. by destruct Ho.
    + intros Hloop. apply IH in Hloop as [Hlen' Hr]; [|lia].
      split; [lia|]. destruct r as [e|password]; [done|].
      split; [apply Hr|lia].
    + intros [= <- <-]. split; [lia|]. left. apply Ho.
Qed.

End get_password.

(** ** From the password to the diary *)

Lemma get_password_with_strength_check_step tty :
  get_password_with_strength_check tty =
  match get_password 4 3 tty with
  | (inl e, tty1) => (inl e, tty1)
  | (inr password, tty1) =>
      if (validate_password_strength password).1 then (inr password, tty1)
      else match ask_choice tty1 with
           | (inl e, tty2) => (inl e, tty2)
           | (inr true, tty2) => (inr password, tty2)
           | (inr false, tty2) => get_password_with_strength_check tty2
           end
  end.
Proof.
  funelim (get_password_with_strength_check tty); try clear Heqcall;
    repeat match goal with
      | H : get_password _ _ _ = _ |- _ => rewrite H
      | H : ask_choice _ = _ |- _ => rewrite H
      | H : (validate_password_strength _).1 = _ |- _ => rewrite H
      end;
    done.
Qed.

(** A password that comes out of the strength check went through
    [get_password()]. *)
Lemma get_password_with_strength_check_valid tty password tty' :
  get_password_with_strength_check tty = (inr password, tty') →
  valid_password 4 password.
Proof.
  remember (length tty) as n eqn:Hn. revert tty Hn.
  induction (lt_wf n) as [n _ IH]. intros tty -> .
  rewrite get_password_with_strength_check_step.
  destruct (get_password 4 3 tty) as [[e|p] tty1] eqn:Hpw; [done|].
  pose proof (get_password_loop_length _ _ _ _ _ _ Hpw) as [_ Hlt].
  apply get_password_loop_inv in Hpw as [_ [Hvalid _]].
  destruct (validate_password_strength p).1; [by intros [= <- <-]|].
  destruct (ask_choice tty1) as [[e|[]] tty2] eqn:Hchoice;
    [done|by intros [= <- <-]|].
  apply ask_choice_length in Hchoice. intros Hrec.
  eapply (IH (length tty2)); [|done|exact Hrec].
  specialize (Hlt (ex_intro _ p eq_refl)). lia.
Qed.

(** When [get_password()] raises, nothing catches the exception. *)
Lemma get_secure_password_raises tty e tty' :
  get_password 4 3 tty = (inl e, tty') →
  get_secure_password_for_diary tty = (inl e, tty').
Proof.
  intros Hpw. unfold get_secure_password_for_diary.
  by rewrite get_password_with_strength_check_step, Hpw.
Qed.

Lemma main_raises fs year tty e tty' :
  1900 ≤ year ≤ 2100 →
  get_password 4 3 tty = (inl e, tty') →
  main fs year tty = Uncaught e.
Proof.
  intros Hy Hpw. unfold main.
  rewrite (proj2 (Z.ltb_ge _ _)), (proj2 (Z.ltb_ge _ _)) by lia; simpl.
  by rewrite (get_secure_password_raises _ _ _ Hpw).
Qed.

(** A diary is saved only under a valid password. *)
Lemma main_saved fs year tty filename encrypt ops :
  main fs year tty = Saved filename encrypt ops →
  valid_password 4 (userPassword encrypt).
Proof.
  unfold main, get_secure_password_for_diary.
  destruct ((year <? 1900) || (2100 <? year)); [done|].
  destruct (get_password_with_strength_check tty) as [[e|p] tty'] eqn:Hpw; [done|].
  destruct (get_us_holidays year); [|done].
  destruct (generate_diary fs year (new_generator fs)) as [[e|[]] gen]; [done|].
  intros [= <- <- <-].
  by eapply get_password_with_strength_check_valid.
Qed.

(** C9, as stated, fails: a cancellation at the question `Continue with
    this password?`, which is asked after the weak password abcd was
    entered and confirmed, leaves as [KeyboardInterrupt], not as
    [ValueError]; nothing in [main] catches it. *)
Lemma cancelled_choice_counterexample :
  ¬ (∀ e tty',
       get_password_with_strength_check
         [Typed "abcd"; Typed "abcd"; Raises KeyboardInterrupt] = (inl e, tty') →
       ∃ msg, e = ValueError msg).
Proof.
  intros Hclaim.
  destruct (Hclaim KeyboardInterrupt []) as [msg Hmsg]; [by vm_compute|].
  discriminate Hmsg.
Qed.

(** C9, amended: credential errors cause bounded retries, then a
    terminal failure. With the interactive input as the sequence of what
    the prompts hand back: when every attempt fails validation (password
    shorter than min_length, whitespace only, or confirmation mismatch),
    [get_password] retries within its budget of max_attempts (3 by
    default) and then raises ValueError; a cancelled password prompt
    raises ValueError as well; no diary is produced without a credential,
    and a password that is returned satisfies the validation rules. *)
Theorem credential_errors_bounded_retries :
  (* every attempt of the budget fails: ValueError *)
  (∀ min_length max_attempts tty tty',
     0 ≤ max_attempts →
     failed_attempts min_length (Z.to_nat max_attempts) tty tty' →
     get_password min_length max_attempts tty
     = (inl (max_attempts_reached max_attempts), tty'))
  (* failed attempts below the budget are followed by another attempt *)
  ∧ (∀ min_length max_attempts n tty tty' password,
       Z.of_nat n < max_attempts →
       failed_attempts min_length n tty (Typed password :: Typed password :: tty') →
       valid_password min_length password →
       get_password min_length max_attempts tty = (inr password, tty'))
  (* a cancelled entry: ValueError *)
  ∧ (∀ min_length max_attempts n tty tty1 tty2,
       Z.of_nat n < max_attempts →
       failed_attempts min_length n tty tty1 →
       cancelled_attempt min_length tty1 tty2 →
       get_password min_length max_attempts tty
       = (inl (ValueError "Password entry cancelled"), tty2))
  (* whatever the terminal holds: at most two prompts per attempt of the
     budget, and the result is a ValueError or a valid password *)
  ∧ (∀ min_length max_attempts tty r tty',
       get_password min_length max_attempts tty = (r, tty') →
       (length tty ≤ length tty' + 2 * Z.to_nat max_attempts)%nat
       ∧ match r with
         | inr password => valid_password min_length password
         | inl e => ∃ msg, e = ValueError msg
         end)
  (* the failure is terminal: [main] ends on the exception, without a diary *)
  ∧ (∀ fs year tty tty',
       1900 ≤ year ≤ 2100 →
       failed_attempts 4 3 tty tty' →
       main fs year tty
       = Uncaught (ValueError "Failed to get valid password after 3 attempts"))
  ∧ (∀ fs year tty e tty',
       1900 ≤ year ≤ 2100 →
       get_password 4 3 tty = (inl e, tty') →
       main fs year tty = Uncaught e)
  (* a diary is saved only under a password that passed validation *)
  ∧ (∀ fs year tty filename encrypt ops,
       main fs year tty = Saved filename encrypt ops →
       valid_password 4 (userPassword encrypt)).
Proof.
  assert (∀ min_length max_attempts tty tty',
     0 ≤ max_attempts →
     failed_attempts min_length (Z.to_nat max_attempts) tty tty' →
     get_password min_length max_attempts tty
     = (inl (max_attempts_reached max_attempts), tty')) as Hfail.
  { intros min_length max_attempts tty tty' Hmax Hfailed. unfold get_password.
    rewrite (get_password_loop_failed _ _ _ _ _ Hfailed) by lia.
    apply get_password_loop_exhausted. lia. }
  split_and!.
  - exact Hfail.
  - intros min_length max_attempts n tty tty' password Hn Hfailed Hvalid.
    unfold get_password.
    rewrite (get_password_loop_failed _ _ _ _ _ Hfailed) by lia.
    rewrite get_password_loop_step.
    destruct (decide (0 + Z.of_nat n < max_attempts)); [|lia].
    by rewrite attempt_valid.
  - intros min_length max_attempts n tty tty1 tty2 Hn Hfailed Hcancel.
    unfold get_password.
    rewrite (get_password_loop_failed _ _ _ _ _ Hfailed) by lia.
    rewrite get_password_loop_step.
    destruct (decide (0 + Z.of_nat n < max_attempts)); [|lia].
    by rewrite (attempt_cancelled _ _ _ Hcancel).
  - intros min_length max_attempts tty r tty' Hpw.
    apply get_password_loop_inv in Hpw as [Hlen Hr].
    rewrite Z.sub_0_r in Hlen. split; [done|].
    destruct r as [e|password]; [|apply Hr].
    destruct Hr as [-> | ->]; eexists; reflexivity.
  - intros fs year tty tty' Hyear Hfailed.
    eapply main_raises; [done|]. by apply (Hfail 4 3).
  - apply main_raises.
  - intros fs year tty filename encrypt ops Hmain.
    by apply main_saved in Hmain.
Qed.

Lemma credential_errors_bounded_retries_witness :
  let tty := [Typed "abc"; Typed "    "; Typed "abcd"; Typed "abce"] in
  failed_attempts 4 3 tty []
  ∧ get_password 4 3 tty
    = (inl (ValueError "Failed to get valid password after 3 attempts"), [])
  ∧ main (Images true (λ _, true)) 2024 tty
    = Uncaught (ValueError "Failed to get valid password after 3 attempts").
Proof.
  intros tty.
  assert (failed_attempts 4 3 tty []) as Hfailed.
  { eapply failed_more; [apply too_short; compute_done|].
    eapply failed_more; [apply only_whitespace; [compute_done|reflexivity]|].
    eapply failed_more; [|apply failed_none].
    apply mismatch; [split; compute_done|discriminate]. }
  split; [exact Hfailed|].
  destruct credential_errors_bounded_retries as (Hbudget & _ & _ & _ & Hmain & _).
  split.
  - apply (Hbudget 4 3 tty []); [lia|exact Hfailed].
  - apply (Hmain (Images true (λ _, true)) 2024 tty []); [lia|exact Hfailed].
Defined.

(** * Further properties *)

(** ** Seasons, palettes and backgrounds *)

(** X1: the two season functions agree on every integer; a month outside
    1..12 counts as autumn; and the season of a month is always a key of
    the palette table and of the image table, so that neither lookup
    raises, and the palette has the four colours the pages ask for. *)
Theorem season_lookups_never_miss (month : Z) :
  get_season_from_month month = get_season month
  ∧ (¬ 1 ≤ month ≤ 12 → get_season month = "autumn")
  ∧ (∃ palette,
       get_colors (get_season month) = Some palette
       ∧ ∀ name, name ∈ ["primary"; "secondary"; "accent"; "text"] →
           is_Some (palette !! name))
  ∧ is_Some (SEASON_BACKGROUNDS !! get_season_from_month month).
Proof.
  split; [done|]. split.
  { intros Hout. unfold get_season.
    assert (∀ l : list Z, Forall (λ m, 1 ≤ m ≤ 12) l → month ∉ l) as Hnot.
    { intros l Hl Hin. rewrite Forall_forall in Hl. apply Hout, Hl, Hin. }
    rewrite !bool_decide_eq_false_2; [done|apply Hnot; repeat constructor; lia..]. }
  unfold get_season_from_month, get_season.
  repeat case_bool_decide;
    (split; [|compute_done]);
    (eexists; split; [reflexivity|]);
    intros name Hname;
    repeat (apply elem_of_cons in Hname as [->|Hname]);
    first [compute_done | by apply elem_of_nil in Hname].
Qed.

(** X2: the fallback of the backgrounds is sticky, and its winter drawing
    raises. Over any sequence of calls of [draw_seasonal_background], the
    lookup of the image path never raises [KeyError]; a page gets the
    image of its season exactly when images were enabled and every load so
    far, its own included, succeeded; every other page falls back to the
    generated drawing of its season, and [use_images] stays off from then
    on. The sequence gets through exactly when no winter page falls back;
    otherwise it raises the [AttributeError] of [draw_winter_background]
    at the first winter page that falls back. *)
Theorem background_fallback_is_sticky (start : bool) (pages : list (Z * bool)) :
  let serve (i : nat) := start && forallb snd (take i pages) in
  match draw_backgrounds start pages with
  | (inr drawn, use_images_after) =>
      use_images_after = serve (length pages)
      ∧ length drawn = length pages
      ∧ ∀ (i : nat) month loads,
          pages !! i = Some (month, loads) →
          ∃ image_path b,
            SEASON_BACKGROUNDS !! get_season_from_month month = Some image_path
            ∧ drawn !! i = Some b
            ∧ if serve (S i) then b = drawImage image_path
              else draw_generated (get_season_from_month month) = inr b
  | (inl e, use_images_after) =>
      e = no_moveTo ∧ use_images_after = false
      ∧ ∃ (i : nat) month loads,
          pages !! i = Some (month, loads)
          ∧ get_season_from_month month = "winter"
          ∧ serve (S i) = false
          ∧ ∀ (j : nat) month' loads',
              (j < i)%nat → pages !! j = Some (month', loads') →
              get_season_from_month month' = "winter" → serve (S j) = true
  end.
Proof.
  revert start. induction pages as [|[month0 loads0] pages IH]; intros start; cbv zeta.
  - simpl. rewrite andb_true_r. done.
  - cbn [draw_backgrounds].
    destruct (draw_seasonal_background_spec start month0 loads0)
      as (path0 & Hpath0 & ->).
    pose proof (draw_generated_raises month0) as Hgen.
    assert (∀ i, (start && loads0) && forallb snd (take i pages)
                 = start && forallb snd (take (S i) ((month0, loads0) :: pages)))
      as Hserve by (intros i; simpl; by rewrite andb_assoc).
    assert (start && forallb snd (take 1 ((month0, loads0) :: pages)) = start && loads0)
      as Hfirst by (simpl; by rewrite andb_true_r).
    assert ((∃ b0, (if start && loads0 then inr (drawImage path0)
                    else draw_generated (get_season_from_month month0)) = inr b0
                   ∧ (if start && loads0 then b0 = drawImage path0
                      else draw_generated (get_season_from_month month0) = inr b0)
                   ∧ (get_season_from_month month0 = "winter" → start && loads0 = true))
            ∨ (if start && loads0 then inr (drawImage path0)
               else draw_generated (get_season_from_month month0)) = inl no_moveTo
              ∧ start && loads0 = false
              ∧ get_season_from_month month0 = "winter") as [(b0 & -> & Hb0 & Hw0)|(-> & Hs0 & Hw0)].
    { destruct (start && loads0); [left; by eexists|].
      destruct (draw_generated (get_season_from_month month0)) as [e|b0].
      - right. by destruct Hgen as [-> ?].
      - left. exists b0. split_and!; done. }
    + specialize (IH (start && loads0)). cbv zeta in IH.
      destruct (draw_backgrounds (start && loads0) pages) as [[e|drawn] after].
      * destruct IH as (-> & -> & i & month & loads & Hi & Hw & Hs & Hbefore).
        split; [done|]. split; [done|].
        exists (S i), month, loads. split_and!; try done.
        -- by rewrite <- Hserve.
        -- intros [|j] month' loads' Hj Hlook Hwinter.
           ++ injection Hlook as <- <-. rewrite Hfirst. by apply Hw0.
           ++ rewrite <- Hserve. eapply Hbefore; [|done..]. lia.
      * destruct IH as (-> & Hlen & Hpages). split_and!.
        -- by rewrite Hserve.
        -- simpl. by rewrite Hlen.
        -- intros [|i] month loads Hi.
           ++ injection Hi as <- <-. exists path0, b0. rewrite Hfirst. done.
           ++ destruct (Hpages i month loads Hi) as (path & b & Hpath & Hb & Hkind).
              exists path, b. rewrite <- Hserve. done.
    + split; [done|]. split; [done|].
      exists 0%nat, month0, loads0. split_and!; try done.
      * by rewrite Hfirst.
      * intros j ? ? Hj. lia.
Qed.

Lemma background_fallback_is_sticky_witness :
  [(6, true); (4, false); (7, true); (1, true)] !! 3%nat = Some (1, true)
  ∧ draw_backgrounds true [(6, true); (4, false); (7, true); (1, true)]
    = (inl no_moveTo, false)
  ∧ draw_backgrounds true [(6, true); (4, false); (7, true)]
    = (inr [drawImage "images/summer_bg.jpg"; spring_drawing; summer_drawing], false).
Proof.
  split; [reflexivity|].
  pose proof (background_fallback_is_sticky true
                [(6, true); (4, false); (7, true); (1, true)]) as Hrun.
  cbv zeta in Hrun.
  destruct (draw_backgrounds true [(6, true); (4, false); (7, true); (1, true)])
    as [[e|drawn] after] eqn:Hdraw.
  - destruct Hrun as (-> & -> & _). split; reflexivity.
  - vm_compute in Hdraw. discriminate Hdraw.
Defined.

(** ** The run of [main] *)



(** ** Exceptions at the password prompts *)

Lemma attempt_raises min_length e tty :
  e ≠ KeyboardInterrupt →
  attempt min_length (Raises e :: tty) = (Continue, tty).
Proof. intros He. unfold attempt; simpl. by destruct e. Qed.

Lemma get_password_loop_errors min_length max_attempts (es : list exn) tty :
  Forall (λ e, e ≠ KeyboardInterrupt) es →
  ∀ attempts, attempts + Z.of_nat (length es) ≤ max_attempts →
  get_password_loop min_length max_attempts attempts ((Raises <$> es) ++ tty)
  = get_password_loop min_length max_attempts (attempts + Z.of_nat (length es)) tty.
Proof.
  induction 1 as [|e es He _ IH]; intros attempts Hle; simpl in *.
  - by rewrite Z.add_0_r.
  - rewrite get_password_loop_step.
    destruct (decide (attempts < max_attempts)); [|lia].
    rewrite attempt_raises by done. rewrite IH by lia. f_equal. lia.
Qed.

Lemma get_password_loop_closed min_length max_attempts (k : nat) :
  ∀ attempts, k = Z.to_nat (max_attempts - attempts) →
  get_password_loop min_length max_attempts attempts []
  = (inl (max_attempts_reached max_attempts), []).
Proof.
  induction k as [|k IH]; intros attempts Hk; rewrite get_password_loop_step;
    destruct (decide (attempts < max_attempts)); try done; try lia.
  simpl. apply IH. lia.
Qed.

(** X4: an exception of a password prompt other than KeyboardInterrupt
    costs one attempt and is otherwise swallowed: after fewer of them than
    the budget a valid entry is still accepted, after as many as the
    budget the ValueError of the budget is raised; on a closed terminal,
    where every prompt raises EOFError, this ValueError is what comes out;
    with a budget of zero or less no prompt is made at all. *)
Theorem get_password_swallows_exceptions (min_length max_attempts : Z) :
  (∀ es password tty,
     Forall (λ e, e ≠ KeyboardInterrupt) es →
     Z.of_nat (length es) < max_attempts →
     valid_password min_length password →
     get_password min_length max_attempts
       ((Raises <$> es) ++ Typed password :: Typed password :: tty)
     = (inr password, tty))
  ∧ (∀ es tty,
       Forall (λ e, e ≠ KeyboardInterrupt) es →
       Z.of_nat (length es) = max_attempts →
       get_password min_length max_attempts ((Raises <$> es) ++ tty)
       = (inl (max_attempts_reached max_attempts), tty))
  ∧ get_password min_length max_attempts []
    = (inl (max_attempts_reached max_attempts), [])
  ∧ (max_attempts ≤ 0 →
     ∀ tty, get_password min_length max_attempts tty
            = (inl (max_attempts_reached max_attempts), tty)).
Proof.
  unfold get_password. split_and!.
  - intros es password tty Hes Hlen Hvalid.
    rewrite get_password_loop_errors by (done || lia).
    rewrite get_password_loop_step.
    destruct (decide (0 + Z.of_nat (length es) < max_attempts)); [|lia].
    by rewrite attempt_valid.
  - intros es tty Hes Hlen.
    rewrite get_password_loop_errors by (done || lia).
    apply get_password_loop_exhausted. lia.
  - by eapply get_password_loop_closed.
  - intros Hmax tty. apply get_password_loop_exhausted. lia.
Qed.

Lemma get_password_swallows_exceptions_witness :
  get_password 4 3 [Raises EOFError; Raises (ValueError "tty"); Typed "abcd"; Typed "abcd"]
  = (inr "abcd", [])
  ∧ get_password 4 2 [Raises EOFError; Raises EOFError; Typed "abcd"; Typed "abcd"]
    = (inl (max_attempts_reached 2), [Typed "abcd"; Typed "abcd"]).
Proof.
  split.
  - destruct (get_password_swallows_exceptions 4 3) as (Hretry & _).
    apply (Hretry [EOFError; ValueError "tty"] "abcd" []);
      [by repeat constructor | simpl; lia | split; compute_done].
  - destruct (get_password_swallows_exceptions 4 2) as (_ & Hbudget & _).
    apply (Hbudget [EOFError; EOFError] [Typed "abcd"; Typed "abcd"]);
      [by repeat constructor | reflexivity].
Defined.

(** ** Password strength *)

(** X5: a password is reported strong exactly when it has at least 6
    characters, mixes at least two of the four character classes (upper
    case, lower case, digits, the listed symbols) and contains none of the
    common patterns, upper or lower case; it gets no feedback at all
    exactly when it has at least 8 characters, three classes and no
    pattern, and then it is strong. *)
Theorem strong_password_iff (password : string) :
  ((validate_password_strength password).1 = true
   ↔ 6 ≤ len password ∧ 2 ≤ char_types password
     ∧ has_common_pattern password = false)
  ∧ ((validate_password_strength password).2 = []
     ↔ 8 ≤ len password ∧ 3 ≤ char_types password
       ∧ has_common_pattern password = false)
  ∧ ((validate_password_strength password).2 = []
     → (validate_password_strength password).1 = true).
Proof.
  unfold validate_password_strength.
  fold (char_types password). fold (has_common_pattern password).
  destruct (len password <? 8) eqn:H8; destruct (len password <? 6) eqn:H6;
    destruct (char_types password <? 2) eqn:H2;
    destruct (char_types password <? 3) eqn:H3;
    destruct (has_common_pattern password) eqn:Hp; simpl;
    repeat match goal with
      | H : (_ <? _) = true |- _ => apply Z.ltb_lt in H
      | H : (_ <? _) = false |- _ => apply Z.ltb_ge in H
      end;
    split_and!; try done; try (split; [done|intros (? & ? & ?); (done || lia)]);
    try (split; [intros _; split_and!; (done || lia) | done]).
Qed.

(** ** The question after a weak password *)

Lemma answers_disjoint line : answers_yes line → answers_no line → False.
Proof.
  unfold answers_yes, answers_no. generalize (strip (lower line)). intros choice Hy Hn.
  repeat (apply elem_of_cons in Hy as [->|Hy]);
    [..|by apply elem_of_nil in Hy];
    repeat (apply elem_of_cons in Hn as [Hn|Hn]; [discriminate Hn|]);
    by apply elem_of_nil in Hn.
Qed.

(** X6: the question `Continue with this password?` is asked again until
    the answer is one of y, yes (keep) or n, no, r, retry (start over),
    whatever the case and the blanks around it; other answers are
    skipped; an exception of the prompt leaves with that exception, and
    the end of the input with EOFError. *)
Theorem ask_choice_skips_unrecognised (skipped : list string) (tty : list tty_event) :
  Forall (λ line, ¬ answers_yes line ∧ ¬ answers_no line) skipped →
  (∀ line, answers_yes line →
     ask_choice ((Typed <$> skipped) ++ Typed line :: tty) = (inr true, tty))
  ∧ (∀ line, answers_no line →
       ask_choice ((Typed <$> skipped) ++ Typed line :: tty) = (inr false, tty))
  ∧ (∀ e, ask_choice ((Typed <$> skipped) ++ Raises e :: tty) = (inl e, tty))
  ∧ ask_choice (Typed <$> skipped) = (inl EOFError, []).
Proof.
  unfold answers_yes, answers_no.
  induction 1 as [|l skipped [Hy Hn] _ IH]; simpl.
  - split_and!; try done.
    + intros line Hline. by rewrite bool_decide_eq_true_2.
    + intros line Hline.
      rewrite bool_decide_eq_false_2
        by (intros Hyes; by apply (answers_disjoint line)).
      by rewrite bool_decide_eq_true_2.
  - rewrite !bool_decide_eq_false_2 by done. exact IH.
Qed.

Lemma ask_choice_skips_unrecognised_witness :
  Forall (λ line, ¬ answers_yes line ∧ ¬ answers_no line) ["maybe"; EmptyString]
  ∧ ask_choice [Typed "maybe"; Typed EmptyString; Typed "  YES "; Typed "n"]
    = (inr true, [Typed "n"]).
Proof.
  assert (Forall (λ line, ¬ answers_yes line ∧ ¬ answers_no line) ["maybe"; EmptyString])
    as Hskipped.
  { repeat constructor; unfold answers_yes, answers_no; compute_done. }
  split; [exact Hskipped|].
  destruct (ask_choice_skips_unrecognised ["maybe"; EmptyString] [Typed "n"] Hskipped)
    as (Hyes & _).
  apply (Hyes "  YES "). unfold answers_yes. compute_done.
Defined.

(** What the prompts used is the front of the terminal. *)
Lemma attempt_suffix min_length tty o tty' :
  attempt min_length tty = (o, tty') → ∃ used, tty = used ++ tty'.
Proof.
  unfold attempt, prompt. intros H.
  repeat (first [ case_match | case_bool_decide ]; simplify_eq/=);
    first [ by exists [] | by eexists [_] | by eexists [_; _] ].
Qed.

Lemma get_password_loop_suffix min_length max_attempts (k : nat) :
  ∀ attempts tty r tty',
    k = Z.to_nat (max_attempts - attempts) →
    get_password_loop min_length max_attempts attempts tty = (r, tty') →
    ∃ used, tty = used ++ tty'.
Proof.
  induction k as [|k IH]; intros attempts tty r tty' Hk;
    rewrite get_password_loop_step;
    destruct (decide (attempts < max_attempts)); try lia;
    try (intros [= <- <-]; by exists []).
  destruct (attempt min_length tty) as [o tty1] eqn:Hattempt.
  apply attempt_suffix in Hattempt as [used1 ->].
  destruct o as [password| |e]; try (intros [= <- <-]; by exists used1).
  intros Hloop. apply IH in Hloop as [used2 ->]; [|lia].
  exists (used1 ++ used2). by rewrite app_assoc.
Qed.

Lemma ask_choice_inv tty r tty' :
  ask_choice tty = (r, tty') →
  ∃ used, tty = used ++ tty'
    ∧ match r with
      | inr true => ∃ before line, used = before ++ [Typed line] ∧ answers_yes line
      | inr false => ∃ before line, used = before ++ [Typed line] ∧ answers_no line
      | inl _ => True
      end.
Proof.
  revert r tty'. induction tty as [|[line|e] tty IH]; intros r tty' H; simpl in H.
  - injection H as <- <-. by exists [].
  - case_bool_decide as Hyes.
    { injection H as <- <-. exists [Typed line]. split; [done|]. by exists [], line. }
    case_bool_decide as Hno.
    { injection H as <- <-. exists [Typed line]. split; [done|]. by exists [], line. }
    apply IH in H as (used & -> & Hr). exists (Typed line :: used). split; [done|].
    destruct r as [e|[]]; [done| |];
      destruct Hr as (before & l & -> & Hl); by exists (Typed line :: before), l.
  - injection H as <- <-. by exists [Raises e].
Qed.

(** X7: a password that comes out of [get_password_with_strength_check]
    was typed twice in a row and is valid; if it is not strong, the last
    line read before returning is an explicit y or yes: a weak password is
    never accepted silently. What was read is the front of the terminal. *)
Theorem weak_password_needs_yes (tty : list tty_event) (password : string)
    (tty' : list tty_event) :
  get_password_with_strength_check tty = (inr password, tty') →
  valid_password 4 password
  ∧ (∃ used, tty = used ++ tty'
       ∧ Typed password ∈ used
       ∧ ((validate_password_strength password).1 = false →
          ∃ before line, used = before ++ [Typed line] ∧ answers_yes line)
       ∧ ((validate_password_strength password).1 = true →
          ∃ before, used = before ++ [Typed password; Typed password])).
Proof.
  intros Hcheck. split; [by eapply get_password_with_strength_check_valid|].
  revert Hcheck.
  remember (length tty) as n eqn:Hn. revert tty Hn.
  induction (lt_wf n) as [n _ IH]. intros tty -> .
  rewrite get_password_with_strength_check_step.
  destruct (get_password 4 3 tty) as [[e|p] tty1] eqn:Hpw; [done|].
  pose proof (get_password_loop_length _ _ _ _ _ _ Hpw) as [_ Hlt].
  specialize (Hlt (ex_intro _ p eq_refl)).
  pose proof Hpw as Hsuffix.
  eapply get_password_loop_suffix in Hsuffix as [used1 Hused1]; [|reflexivity].
  assert (∃ before, used1 = before ++ [Typed p; Typed p]) as [before1 Hbefore1].
  { clear IH Hlt. unfold get_password in Hpw. subst tty.
    remember (Z.to_nat (3 - 0)) as k eqn:Hk. revert Hk Hpw.
    generalize 0 at 1 2 as attempts. revert used1.
    induction k as [|k IHk]; intros used1 attempts Hk;
      rewrite get_password_loop_step;
      destruct (decide (attempts < 3)); try lia; try done.
    destruct (attempt 4 (used1 ++ tty1)) as [o tty2] eqn:Hattempt.
    pose proof (attempt_suffix _ _ _ _ Hattempt) as [used2 Hused2].
    apply attempt_inv in Hattempt as [_ Ho].
    destruct o as [password'| |e]; [| |done].
    - intros [= -> ->]. destruct Ho as [_ Ho].
      exists []. simpl. apply (app_inv_tail tty1). exact Ho.
    - intros Hloop.
      pose proof Hloop as Hsuf.
      eapply get_password_loop_suffix in Hsuf as [used3 Hused3]; [|reflexivity].
      subst tty2. rewrite app_assoc in Hused2. apply app_inv_tail in Hused2.
      subst used1. apply IHk in Hloop as [before Hbefore]; [|lia].
      exists (used2 ++ before). subst used3. apply app_assoc. }
  destruct (validate_password_strength p).1 eqn:Hstrong.
  - intros [= <- <-]. exists used1.
    split_and!; [done| |by rewrite Hstrong|by exists before1].
    rewrite Hbefore1. set_solver.
  - destruct (ask_choice tty1) as [[e|[]] tty2] eqn:Hchoice; [done| |].
    + intros [= <- <-].
      apply ask_choice_inv in Hchoice as (used2 & -> & before & line & -> & Hyes).
      exists (used1 ++ before ++ [Typed line]).
      split_and!; [|  | |by rewrite Hstrong].
      1: { rewrite Hused1. by rewrite <- !app_assoc. }
      2: { intros _. exists (used1 ++ before), line. by rewrite <- !app_assoc. }
      rewrite Hbefore1. set_solver.
    + pose proof (ask_choice_length _ _ _ Hchoice) as Hle.
      apply ask_choice_inv in Hchoice as (used2 & -> & _).
      intros Hrec.
      destruct (IH (length tty2) ltac:(lia) tty2 eq_refl Hrec)
        as (used3 & -> & Hin & Hweak & Hstrong').
      exists (used1 ++ used2 ++ used3). split_and!.
      * by rewrite Hused1, <- !app_assoc.
      * set_solver.
      * intros Hw. destruct (Hweak Hw) as (before & line & -> & Hyes).
        exists (used1 ++ used2 ++ before), line. by rewrite <- !app_assoc.
      * intros Hs. destruct (Hstrong' Hs) as (before & ->).
        exists (used1 ++ used2 ++ before). by rewrite <- !app_assoc.
Qed.

Lemma weak_password_needs_yes_witness :
  let tty := [Typed "abcd"; Typed "abcd"; Typed "what?"; Typed "Yes"] in
  get_password_with_strength_check tty = (inr "abcd", [])
  ∧ valid_password 4 "abcd"
  ∧ (∃ used, tty = used ++ []
       ∧ Typed "abcd" ∈ used
       ∧ ((validate_password_strength "abcd").1 = false →
          ∃ before line, used = before ++ [Typed line] ∧ answers_yes line)
       ∧ ((validate_password_strength "abcd").1 = true →
          ∃ before, used = before ++ [Typed "abcd"; Typed "abcd"])).
Proof.
  intros tty. split; [by vm_compute|].
  apply (weak_password_needs_yes tty "abcd" []). by vm_compute.
Defined.

(** ** Quotes, from any used-set *)

Lemma get_unique_quote_from_any (quotes : list string) (used : gset string) :
  quotes ≠ [] →
  (∀ r, ∃ quote used',
     get_unique_quote_from quotes used r = Some (quote, used')
     ∧ quote ∈ quotes ∧ quote ∈ used'
     ∧ (((quote ∉ used) ∧ used' = {[quote]} ∪ used)
        ∨ ((∀ q, q ∈ quotes → q ∈ used) ∧ used' = {[quote]})))
  ∧ (∀ quote, quote ∈ quotes → quote ∉ used →
       ∃ r, get_unique_quote_from quotes used r = Some (quote, {[quote]} ∪ used)).
Proof.
  intros Hne. unfold get_unique_quote_from.
  destruct (filter (λ q, q ∉ used) quotes) as [|q0 available] eqn:Havail.
  - split.
    + intros r. destruct (random_choice_elem r quotes Hne) as (quote & -> & Hin).
      exists quote, {[quote]}. simpl. rewrite (right_id_L ∅ (∪)).
      split_and!; [done|done|set_solver|]. right. split; [|done].
      intros q Hq. destruct (decide (q ∈ used)); [done|].
      by destruct (filter_nil_not_elem_of _ _ q Havail).
    + intros quote Hin Hfresh.
      by destruct (filter_nil_not_elem_of _ _ quote Havail).
  - split.
    + intros r.
      destruct (random_choice_elem r (q0 :: available)) as (quote & -> & Hin); [done|].
      rewrite <- Havail in Hin. apply list_elem_of_filter in Hin as [? ?].
      exists quote, ({[quote]} ∪ used). simpl.
      split_and!; [done|done|set_solver|]. by left.
    + intros quote Hin Hfresh.
      assert (quote ∈ q0 :: available) as (i & Hi)%list_elem_of_lookup.
      { rewrite <- Havail. by apply list_elem_of_filter. }
      exists i. unfold random_choice.
      rewrite Nat.mod_small by (by eapply lookup_lt_Some).
      by rewrite Hi.
Qed.

(** X8: whatever the used-set and the draw, [get_unique_quote] returns a
    quote of the list (it never fails on an empty choice) and records it;
    the quote was unused before, unless every quote of the list was used,
    in which case the used-set is restarted with this quote alone. Every
    unused quote can come out: no quote is starved by the selection. *)
Theorem get_unique_quote_any_state (used : gset string) :
  (∀ r, ∃ quote used',
     get_unique_quote used r = Some (quote, used')
     ∧ quote ∈ WISDOM_QUOTES ∧ quote ∈ used'
     ∧ (((quote ∉ used) ∧ used' = {[quote]} ∪ used)
        ∨ ((∀ q, q ∈ WISDOM_QUOTES → q ∈ used) ∧ used' = {[quote]})))
  ∧ (∀ quote, quote ∈ WISDOM_QUOTES → quote ∉ used →
       ∃ r, get_unique_quote used r = Some (quote, {[quote]} ∪ used)).
Proof. by apply get_unique_quote_from_any. Qed.

Lemma get_unique_quote_any_state_witness :
  "Be yourself; everyone else is already taken. - Oscar Wilde" ∈ WISDOM_QUOTES
  ∧ ∃ r, get_unique_quote ∅ r
         = Some ("Be yourself; everyone else is already taken. - Oscar Wilde",
                 {["Be yourself; everyone else is already taken. - Oscar Wilde"]} ∪ ∅).
Proof.
  assert ("Be yourself; everyone else is already taken. - Oscar Wilde" ∈ WISDOM_QUOTES)
    as Hin by compute_done.
  split; [exact Hin|].
  destruct (get_unique_quote_any_state ∅) as [_ Hany].
  apply (Hany _ Hin). apply not_elem_of_empty.
Defined.

(** ** More on word wrapping *)

Section greedy.
Local Arguments String.append : simpl nomatch.
Variable fits : nat → bool.

Lemma greedy_chain_snoc groups group next :
  greedy_chain fits (groups ++ [group]) →
  greedy_break fits group next →
  greedy_chain fits (groups ++ [group; next]).
Proof.
  induction groups as [|g groups IH]; simpl; intros Hchain Hbreak.
  - done.
  - destruct groups as [|g' groups]; simpl in *.
    + split; [apply Hchain|done].
    + split; [apply Hchain|]. apply IH; [apply Hchain|done].
Qed.

Lemma greedy_chain_extend_last groups group word :
  group ≠ [] →
  greedy_chain fits (groups ++ [group]) →
  greedy_chain fits (groups ++ [group ++ [word]]).
Proof.
  intros Hne. induction groups as [|g groups IH]; simpl; [done|].
  intros Hchain. destruct groups as [|g' groups]; simpl in *.
  - destruct Hchain as [(w & rest & -> & Hfails) _]. split; [|done].
    by exists w, (rest ++ [word]).
  - split; [apply Hchain|]. apply IH, Hchain.
Qed.

Lemma greedy_chain_lookup groups (i : nat) group next :
  greedy_chain fits groups →
  groups !! i = Some group → groups !! S i = Some next →
  greedy_break fits group next.
Proof.
  revert i. induction groups as [|g groups IH]; intros i Hchain Hi Hnext; [done|].
  destruct groups as [|g' groups]; [done|]. destruct Hchain as [Hbreak Hchain].
  destruct i as [|i]; simplify_eq/=; [done|]. by eapply IH.
Qed.

(** The loop keeps the finished lines and the current line in a greedy
    chain of groups of the words seen so far. *)
Lemma wrap_step_greedy processed st word :
  wrap_greedy_inv fits processed st →
  wrap_greedy_inv fits (processed ++ [word]) (wrap_step fits st word)
  ∧ (wrap_step fits st word).2 ≠ [].
Proof.
  destruct st as [lines current_line].
  intros (groups & Hlines & Hne & Hwords & Hempty & Hchain); simpl in *.
  unfold wrap_step.
  destruct (fits (String.length (join " " (current_line ++ [word])))) eqn:Hfits; simpl.
  - split; [|by destruct current_line].
    exists groups; simpl. split_and!; try done.
    + by rewrite app_assoc, Hwords.
    + by destruct current_line.
    + destruct current_line as [|w current_line].
      * by rewrite Hempty.
      * by apply greedy_chain_extend_last.
  - split; [|done]. destruct current_line as [|w current_line]; simpl.
    + exists groups; simpl. split_and!; try done.
      * rewrite app_nil_r in Hwords. by rewrite Hwords.
      * by rewrite Hempty.
    + exists (groups ++ [w :: current_line]); simpl. split_and!; try done.
      * by rewrite fmap_app, Hlines.
      * apply Forall_app. by repeat constructor.
      * rewrite concat_app; simpl. rewrite app_nil_r, <- Hwords.
        by rewrite <- app_assoc.
      * rewrite <- app_assoc. apply greedy_chain_snoc; [done|].
        by exists word, [].
Qed.

Lemma wrap_fold_greedy words : ∀ processed st,
  wrap_greedy_inv fits processed st →
  wrap_greedy_inv fits (processed ++ words) (foldl (wrap_step fits) st words).
Proof.
  induction words as [|word words IH]; intros processed st Hst; simpl.
  - by rewrite app_nil_r.
  - replace (processed ++ word :: words) with ((processed ++ [word]) ++ words)
      by by rewrite <- app_assoc.
    by apply IH, wrap_step_greedy.
Qed.

Lemma wrap_text_greedy_groups text :
  ∃ groups : list (list string),
    wrap_text_with fits text = join " " <$> groups
    ∧ Forall (λ g, g ≠ []) groups
    ∧ concat groups = split text
    ∧ greedy_chain fits groups.
Proof.
  unfold wrap_text_with.
  assert (wrap_greedy_inv fits [] ([], [])) as Hinit by (by exists []).
  apply (wrap_fold_greedy (split text)) in Hinit. simpl in Hinit.
  destruct (foldl (wrap_step fits) ([], []) (split text)) as [lines current_line].
  destruct Hinit as (groups & Hlines & Hne & Hwords & Hempty & Hchain); simpl in *.
  destruct current_line as [|w current_line].
  - exists groups. rewrite !app_nil_r in *. done.
  - exists (groups ++ [w :: current_line]). split_and!; try done.
    + by rewrite fmap_app, Hlines.
    + apply Forall_app. by repeat constructor.
    + rewrite concat_app; simpl. by rewrite app_nil_r.
Qed.

Lemma join_snoc group word :
  group ≠ [] → join " " (group ++ [word]) = join " " group +:+ " " +:+ word.
Proof.
  induction group as [|w group IH]; [done|]. intros _.
  destruct group as [|w' group]; [done|].
  change (join " " ((w :: w' :: group) ++ [word]))
    with (w +:+ " " +:+ join " " ((w' :: group) ++ [word])).
  rewrite IH by done.
  change (join " " (w :: w' :: group)) with (w +:+ " " +:+ join " " (w' :: group)).
  by rewrite !append_assoc.
Qed.

(** X9: [wrap_text] breaks lines greedily. Whenever a line is followed by
    another one, the line extended by a space and the first word of the
    next line fails the width test: no word was moved to the next line that
    the test would have admitted. *)
Theorem wrap_text_greedy (text : string) (i : nat) (line next : string) :
  wrap_text_with fits text !! i = Some line →
  wrap_text_with fits text !! S i = Some next →
  ∃ word rest, split next = word :: rest
    ∧ fits (String.length (line +:+ " " +:+ word)) = false.
Proof.
  destruct (wrap_text_greedy_groups text) as (groups & -> & Hne & Hwords & Hchain).
  pose proof (groups_words groups text Hwords) as Hall.
  rewrite !list_lookup_fmap.
  destruct (groups !! i) as [g|] eqn:Hg; [|done].
  destruct (groups !! S i) as [g'|] eqn:Hg'; [|done].
  intros [= <-] [= <-].
  destruct (greedy_chain_lookup groups i g g' Hchain Hg Hg')
    as (word & rest & -> & Hfails).
  exists word, rest. split.
  - apply split_join. rewrite Forall_forall in Hall.
    by eapply Hall, list_elem_of_lookup_2.
  - rewrite <- join_snoc; [done|].
    rewrite Forall_forall in Hne. by eapply Hne, list_elem_of_lookup_2.
Qed.

End greedy.

Lemma wrap_text_greedy_witness :
  wrap_text_with (λ n, n <=? 5)%nat "aa bb cc" !! 0%nat = Some "aa bb"
  ∧ wrap_text_with (λ n, n <=? 5)%nat "aa bb cc" !! 1%nat = Some "cc"
  ∧ ∃ word rest, split "cc" = word :: rest
      ∧ (String.length ("aa bb" +:+ " " +:+ word) <=? 5)%nat = false.
Proof.
  split; [reflexivity|]. split; [reflexivity|].
  apply (wrap_text_greedy (λ n, n <=? 5)%nat "aa bb cc" 0 "aa bb" "cc");
    reflexivity.
Defined.

Section single_line.
Local Arguments String.append : simpl nomatch.
Variable fits : nat → bool.

Lemma length_append (s1 s2 : string) :
  String.length (s1 +:+ s2) = (String.length s1 + String.length s2)%nat.
Proof. induction s1 as [|c s1 IH]; simpl; [done|by rewrite IH]. Qed.

Lemma join_length_prefix (ws ws' : list string) :
  (String.length (join " " ws) ≤ String.length (join " " (ws ++ ws')))%nat.
Proof.
  induction ws as [|w ws IH]; [simpl; lia|].
  destruct ws as [|w' ws].
  - destruct ws' as [|w' ws']; [done|].
    change (join " " ([w] ++ w' :: ws')) with (w +:+ " " +:+ join " " (w' :: ws')).
    rewrite length_append. simpl. lia.
  - change (join " " ((w :: w' :: ws) ++ ws'))
      with (w +:+ " " +:+ join " " ((w' :: ws) ++ ws')).
    change (join " " (w :: w' :: ws)) with (w +:+ " " +:+ join " " (w' :: ws)).
    rewrite !length_append. lia.
Qed.

Lemma wrap_fold_fits words : ∀ current,
  (∀ k, fits (String.length (join " " (current ++ take k words))) = true) →
  foldl (wrap_step fits) ([], current) words = ([], current ++ words).
Proof.
  induction words as [|word words IH]; intros current Hfits; cbn [foldl].
  - by rewrite app_nil_r.
  - pose proof (Hfits 1%nat) as Hword.
    change (take 1 (word :: words)) with [word] in Hword.
    replace (wrap_step fits ([], current) word) with ([] : list string, current ++ [word])
      by (unfold wrap_step; by rewrite Hword).
    rewrite IH; [by rewrite <- app_assoc|].
    intros k. rewrite <- app_assoc. apply (Hfits (S k)).
Qed.

(** X10: a text that passes the width test as a whole stays on one line.
    For a width test that shorter lines pass whenever longer ones do (as
    the test of [wrap_text] does for a font size that is not negative),
    if the words of the text joined by single spaces pass the test, then
    [wrap_text] returns exactly that one line, and no line at all for a
    text without words. *)
Theorem wrap_text_single_line (text : string) :
  (∀ m n, (m ≤ n)%nat → fits n = true → fits m = true) →
  fits (String.length (join " " (split text))) = true →
  wrap_text_with fits text
  = match split text with [] => [] | words => [join " " words] end.
Proof.
  intros Hmono Hfits. unfold wrap_text_with.
  rewrite wrap_fold_fits.
  - by destruct (split text).
  - intros k. simpl. eapply Hmono; [|exact Hfits].
    rewrite <- (take_drop k (split text)) at 2. apply join_length_prefix.
Qed.

(** X11: [wrap_text] returns no line exactly for a text without words
    (empty or all whitespace), and never more lines than the text has
    words. *)
Theorem wrap_text_line_count (text : string) :
  (wrap_text_with fits text = [] ↔ split text = [])
  ∧ (length (wrap_text_with fits text) ≤ length (split text))%nat.
Proof.
  destruct (wrap_text_groups fits text) as (groups & -> & Hne & Hwords & _).
  rewrite <- Hwords, length_fmap. clear Hwords. split.
  - split.
    + by intros ->%fmap_nil_inv.
    + destruct groups as [|g groups]; [done|].
      apply Forall_cons in Hne as [Hg _]. by destruct g.
  - induction Hne as [|g groups Hg _ IH]; simpl; [lia|].
    rewrite length_app. destruct g; [done|]. simpl. lia.
Qed.

End single_line.

Lemma wrap_text_single_line_witness :
  (∀ m n, (m ≤ n)%nat → (n <=? 20)%nat = true → (m <=? 20)%nat = true)
  ∧ (String.length (join " " (split "  aa bb   cc ")) <=? 20)%nat = true
  ∧ wrap_text_with (λ n, n <=? 20)%nat "  aa bb   cc " = ["aa bb cc"].
Proof.
  assert (∀ m n, (m ≤ n)%nat → (n <=? 20)%nat = true → (m <=? 20)%nat = true)
    as Hmono.
  { intros m n Hle Hn. apply Nat.leb_le. apply Nat.leb_le in Hn. lia. }
  split; [exact Hmono|]. split; [reflexivity|].
  apply (wrap_text_single_line (λ n, n <=? 20)%nat "  aa bb   cc " Hmono).
  reflexivity.
Defined.

(** ** The holiday table, entry by entry *)

(** Within a window of seven days of a month, the day with a given weekday
    is the one the forward rule computes. *)
Lemma weekday_window year month shift weeks day :
  1 + 7 * weeks ≤ day ≤ 7 + 7 * weeks →
  weekday (Date year month day) = shift `mod` 7 →
  day = 1 + (shift - weekday (Date year month 1)) `mod` 7 + 7 * weeks.
Proof.
  intros Hday. replace day with (1 + (day - 1)) at 1 by lia.
  rewrite weekday_shift.
  pose proof (mod7_bounds (toordinal (Date year month 1) + 6)) as Hw.
  fold (weekday (Date year month 1)) in Hw.
  generalize dependent (weekday (Date year month 1)). intros w Hw.
  intros Heq. Z.div_mod_to_equations. lia.
Qed.

(** Within the last seven days before a day, the Sunday is the one the
    backward rule computes. *)
Lemma sunday_window year month last day :
  last - 6 ≤ day ≤ last →
  weekday (Date year month day) = 6 →
  day = last - (weekday (Date year month last) + 1) `mod` 7.
Proof.
  intros Hday. replace day with (last + (day - last)) at 1 by lia.
  rewrite weekday_shift.
  pose proof (mod7_bounds (toordinal (Date year month last) + 6)) as Hw.
  fold (weekday (Date year month last)) in Hw.
  generalize dependent (weekday (Date year month last)). intros w Hw.
  intros Heq. Z.div_mod_to_equations. lia.
Qed.

Ltac holiday_rule_tac Hnth Hback :=
  split_and?; try reflexivity;
  try first [ apply Hback | apply (Hnth 11 3 3) | apply (Hnth 10 7 1)
            | apply (Hnth 2 7 2) | apply (Hnth 1 7 2)
            | rewrite <- (Z.add_0_r (1 + _)); apply (Hnth 9 7 0) ];
  repeat match goal with
    | |- context [?x `mod` 7] =>
        pose proof (mod7_bounds x); generalize dependent (x `mod` 7); intros
    end; lia.

(** X12: the holiday table of a year, entry by entry. For every year from
    1 to 9999 [get_us_holidays] returns a table, all of whose dates lie in
    that year, and which holds exactly: the four fixed dates; the Monday of
    January 15 to 21, of February 15 to 21, of September 1 to 7 and of
    October 8 to 14; the Thursday of November 22 to 28; and, as Memorial
    Day, the Sunday of May 25 to 31. *)
Theorem get_us_holidays_rules (year : Z) :
  MINYEAR ≤ year ≤ MAXYEAR →
  ∃ holidays : gmap date string,
    get_us_holidays year = Some holidays
    ∧ (∀ d, is_Some (holidays !! d) → dyear d = year)
    ∧ ∀ month day name,
        holidays !! Date year month day = Some name
        ↔ (month = 1 ∧ day = 1 ∧ name = "New Year's Day")
          ∨ (month = 7 ∧ day = 4 ∧ name = "Independence Day")
          ∨ (month = 11 ∧ day = 11 ∧ name = "Veterans Day")
          ∨ (month = 12 ∧ day = 25 ∧ name = "Christmas Day")
          ∨ (month = 1 ∧ 15 ≤ day ≤ 21 ∧ weekday (Date year month day) = 0
             ∧ name = "Martin Luther King Jr. Day")
          ∨ (month = 2 ∧ 15 ≤ day ≤ 21 ∧ weekday (Date year month day) = 0
             ∧ name = "Presidents Day")
          ∨ (month = 5 ∧ 25 ≤ day ≤ 31 ∧ weekday (Date year month day) = 6
             ∧ name = "Memorial Day")
          ∨ (month = 9 ∧ 1 ≤ day ≤ 7 ∧ weekday (Date year month day) = 0
             ∧ name = "Labor Day")
          ∨ (month = 10 ∧ 8 ≤ day ≤ 14 ∧ weekday (Date year month day) = 0
             ∧ name = "Columbus Day")
          ∨ (month = 11 ∧ 22 ≤ day ≤ 28 ∧ weekday (Date year month day) = 3
             ∧ name = "Thanksgiving Day").
Proof.
  intros Hy. exists (list_to_map (holiday_entries year)).
  split; [by apply get_us_holidays_entries|].
  pose proof (nth_weekday_rule year) as Hnth. cbv zeta in Hnth.
  pose proof (days_back_rule year 5 31) as Hback. cbv zeta in Hback.
  split.
  - intros d [name Hd]. apply holiday_entries_lookup in Hd.
    unfold holiday_entries in Hd.
    repeat (apply elem_of_cons in Hd as [[= -> ->]|Hd]); try done.
    by apply elem_of_nil in Hd.
  - intros month day name. rewrite holiday_entries_lookup.
    unfold holiday_entries. split.
    + intros Hd.
      repeat (apply elem_of_cons in Hd as [[= -> -> ->]|Hd]);
        [..|by apply elem_of_nil in Hd];
        repeat match goal with
          | |- _ ∨ _ =>
              first [ left; solve [holiday_rule_tac Hnth Hback] | right ]
          end;
        holiday_rule_tac Hnth Hback.
    + intros Hrule.
      decompose [or and] Hrule; clear Hrule; subst;
        rewrite !elem_of_cons;
        repeat match goal with
          | |- _ ∨ _ => first [ left; reflexivity
                             | left; do 2 f_equal;
                               first [ by apply (weekday_window year _ 3 3)
                                     | by apply (weekday_window year _ 7 2)
                                     | by apply (weekday_window year _ 7 1)
                                     | rewrite <- (Z.add_0_r (1 + _));
                                       by apply (weekday_window year _ 7 0)
                                     | by apply sunday_window ]
                             | right ]
          end.
Qed.

Lemma get_us_holidays_rules_witness :
  MINYEAR ≤ 2024 ≤ MAXYEAR
  ∧ ∃ holidays : gmap date string,
      get_us_holidays 2024 = Some holidays
      ∧ holidays !! Date 2024 11 28 = Some "Thanksgiving Day"
      ∧ holidays !! Date 2024 5 27 = None.
Proof.
  assert (MINYEAR ≤ 2024 ≤ MAXYEAR) as Hy by (unfold MINYEAR, MAXYEAR; lia).
  split; [exact Hy|].
  destruct (get_us_holidays_rules 2024 Hy) as (holidays & Hh & _ & Hrule).
  exists holidays. split; [exact Hh|]. split.
  - apply Hrule. do 9 right. by vm_compute.
  - destruct (holidays !! Date 2024 5 27) as [name|] eqn:Hd; [|done].
    apply Hrule in Hd. decompose [or and] Hd; done.
Defined.

(** X13: [get_us_holidays], and with it the constructor of the
    generator, returns a table exactly for the years 1..9999; for every
    other year it raises, and what it raises is the exception of its
    first call [date(year, 1, 1)] (a [ValueError], or an [OverflowError]
    for an integer beyond the C int range: the model has one outcome for
    both). *)
Theorem get_us_holidays_defined (year : Z) :
  (is_Some (get_us_holidays year) ↔ MINYEAR ≤ year ≤ MAXYEAR)
  ∧ (get_us_holidays year = None ↔ date_of year 1 1 = None).
Proof.
  assert (is_Some (get_us_holidays year) → MINYEAR ≤ year ≤ MAXYEAR) as Hsome.
  { unfold get_us_holidays.
    destruct (date_of year 1 1) as [d|] eqn:Hd.
    - intros _. apply date_of_Some in Hd. tauto.
    - by intros [? ?]. }
  split.
  - split; [exact Hsome|]. intros Hy. by rewrite get_us_holidays_entries.
  - split.
    + intros Hnone. destruct (date_of year 1 1) as [d|] eqn:Hd; [|done].
      apply date_of_Some in Hd as (_ & Hy & _).
      rewrite get_us_holidays_entries in Hnone by done. done.
    + intros Hd. unfold get_us_holidays. by rewrite Hd.
Qed.

(** ** The links of a month page *)

Lemma links_app (p q : list canvas_op) : links (p ++ q) = links p ++ links q.
Proof. unfold links. apply omap_app. Qed.

Lemma bookmarks_app (p q : list canvas_op) :
  bookmarks (p ++ q) = bookmarks p ++ bookmarks q.
Proof. unfold bookmarks. apply omap_app. Qed.

Lemma month_tabs_links (current : Z) (l : list Z) :
  links (i ← l;
         if bool_decide (Some current ≠ Some (i + 1))
         then [linkRect (month_anchor (i + 1))] else [])
  = month_anchor <$> filter (λ m, m ≠ current) ((λ i, i + 1) <$> l).
Proof.
  induction l as [|i l IH]; [done|].
  rewrite bind_cons, links_app, IH, fmap_cons, filter_cons.
  destruct (decide (current = i + 1)) as [->|Hne].
  - rewrite bool_decide_eq_false_2 by (intros Hi; by apply Hi).
    rewrite decide_False by (intros Hi; by apply Hi). done.
  - rewrite bool_decide_eq_true_2 by congruence.
    rewrite decide_True by congruence. done.
Qed.

Lemma month_tabs_bookmarks (current : option Z) : bookmarks (draw_month_tabs current) = [].
Proof.
  unfold draw_month_tabs. induction (range 0 12) as [|i l IH]; [done|].
  rewrite bind_cons, bookmarks_app, IH. by case_bool_decide.
Qed.

(** X14: what a month page declares and where it links. For every year
    and every month 1 to 12, the page declares the anchor of its month and
    no other; its links are, in order, the tabs of the eleven other months
    and then one link per day of the month, from the 1st to the last, to
    the anchor of that day: the padding cells of the grid carry no link. *)
Theorem create_month_page_links (year month_num : Z) :
  1 ≤ month_num ≤ 12 →
  bookmarks (create_month_page year month_num) = [month_anchor month_num]
  ∧ links (create_month_page year month_num)
    = (month_anchor <$> filter (λ m, m ≠ month_num) (range 1 13))
      ++ (day_anchor month_num <$> range 1 (days_in_month year month_num + 1)).
Proof.
  intros Hm. rewrite create_month_page_eq, monthrange_days by done.
  rewrite !bookmarks_app, !links_app, month_tabs_bookmarks.
  unfold draw_month_tabs. rewrite month_tabs_links.
  generalize (range 1 (days_in_month year month_num + 1)). intros days.
  split.
  - simpl. induction days as [|d days IH]; [done|]. exact IH.
  - f_equal. simpl. rewrite app_nil_r.
    induction days as [|d days IH]; [done|]. simpl. by f_equal.
Qed.

Lemma create_month_page_links_witness :
  1 ≤ 2 ≤ 12
  ∧ bookmarks (create_month_page 2023 2) = [month_anchor 2]
  ∧ links (create_month_page 2023 2)
    = (month_anchor <$> filter (λ m, m ≠ 2) (range 1 13))
      ++ (day_anchor 2 <$> range 1 (days_in_month 2023 2 + 1)).
Proof. split; [lia|]. apply (create_month_page_links 2023 2). lia. Defined.

(** ** The form fields of a run *)

Section fields.
Local Arguments String.append : simpl nomatch.

Lemma append_inj_l (p s t : string) : p +:+ s = p +:+ t → s = t.
Proof. induction p as [|c p IH]; simpl; [done|]. intros [= Heq]. by apply IH. Qed.

(** The two fields of a day differ in their first letter; the fields of
    two days differ where the digits of the days do. *)
Lemma day_page_fields_NoDup (days : list (Z * Z)) :
  NoDup ((λ '(month, day), format_02d month +:+ format_02d day) <$> days) →
  NoDup (fields_of days).
Proof.
  unfold fields_of. induction days as [|[month day] days IH]; [constructor|].
  rewrite fmap_cons, bind_cons. intros [Hnew Hdays]%NoDup_cons.
  assert (∀ prefix,
            prefix +:+ format_02d month +:+ format_02d day
              ∈ ('(month, day) ← days; day_page_fields month day) →
            prefix = "activities_" ∨ prefix = "notes_" → False) as Hfresh.
  { intros prefix ([m d] & Hin & Hmd)%list_elem_of_bind Hprefix. apply Hnew.
    apply list_elem_of_fmap. exists (m, d). split; [|done].
    unfold day_page_fields in Hin.
    apply elem_of_cons in Hin as [Hin|Hin%list_elem_of_singleton];
      destruct Hprefix as [-> | ->]; try discriminate Hin;
      by eapply append_inj_l. }
  unfold day_page_fields at 1. simpl. repeat apply NoDup_cons_2.
  - intros [Hin|Hin]%elem_of_cons; [discriminate Hin|].
    by apply (Hfresh "activities_"); [|left].
  - intros Hin. by apply (Hfresh "notes_"); [|right].
  - by apply IH.
Qed.

End fields.

Lemma length_fields_of (days : list (Z * Z)) :
  length (fields_of days) = (2 * length days)%nat.
Proof.
  unfold fields_of. induction days as [|[month day] days IH]; [done|].
  rewrite bind_cons, length_app, IH. simpl. lia.
Qed.

Lemma fields_of_day_loop_NoDup year : NoDup (fields_of (day_loop year)).
Proof.
  rewrite <- day_loop_same_calendar. apply day_page_fields_NoDup.
  unfold same_calendar. destruct (isleap year); compute_done.
Qed.

(** X15: the text fields of a diary never share a name. The day pages that
    a run creates are those of the first days of the day loop: all of them
    when the run gets through, fewer when it stops before. For every year
    and every such front of the loop, the names of the form fields of its
    day pages (activities and notes, with month and day in two digits
    each) are pairwise distinct, and there are two of them per day page. *)
Theorem diary_fields_distinct (year : Z) (created : list (Z * Z)) :
  created `prefix_of` day_loop year →
  NoDup (fields_of created)
  ∧ length (fields_of created) = (2 * length created)%nat.
Proof.
  intros [rest Hloop]. split; [|apply length_fields_of].
  pose proof (fields_of_day_loop_NoDup year) as Hall.
  rewrite Hloop in Hall. unfold fields_of in *. rewrite bind_app in Hall.
  by apply NoDup_app in Hall as [? _].
Qed.

Lemma diary_fields_distinct_witness :
  [(1, 1); (1, 2)] `prefix_of` day_loop 2024
  ∧ NoDup (fields_of [(1, 1); (1, 2)])
  ∧ fields_of [(1, 1); (1, 2)]
    = ["activities_0101"; "notes_0101"; "activities_0102"; "notes_0102"].
Proof.
  assert ([(1, 1); (1, 2)] `prefix_of` day_loop 2024) as Hfront.
  { exists (drop 2 (day_loop 2024)). by vm_compute. }
  split; [exact Hfront|].
  split; [apply (diary_fields_distinct 2024 _ Hfront) | reflexivity].
Defined.

(** ** The calendar grid of a month page *)

Lemma monthcalendar_grid year month :
  monthcalendar year month
  = month_grid (monthrange year month).1 (monthrange year month).2.
Proof.
  unfold monthcalendar, itermonthdays, month_grid.
  by destruct (monthrange year month).
Qed.

(** Where the days sit in the grid: day [d] of a month whose first day has
    weekday [day1] is in row [(day1 + d - 1) / 7], column
    [(day1 + d - 1) mod 7]; the other cells hold zeros. *)
Lemma month_grid_positions day1 ndays :
  0 ≤ day1 < 7 → 28 ≤ ndays ≤ 31 →
  grid_days (month_grid day1 ndays)
  = (λ day, (Z.to_nat ((day1 + day - 1) `div` 7),
             Z.to_nat ((day1 + day - 1) `mod` 7), day)) <$> range 1 (ndays + 1).
Proof.
  intros Hday1 Hndays.
  assert (day1 ∈ range 0 7) as H1 by (apply elem_of_range; lia).
  assert (ndays ∈ range 28 32) as Hn by (apply elem_of_range; lia).
  clear Hday1 Hndays. vm_compute range in H1, Hn.
  repeat (apply elem_of_cons in H1 as [->|H1]);
    [..|by apply elem_of_nil in H1];
    repeat (apply elem_of_cons in Hn as [->|Hn]);
    first [by apply elem_of_nil in Hn | by vm_compute].
Qed.

Lemma bind_bind {A B C} (f : A → list B) (g : B → list C) (l : list A) :
  (l ≫= f) ≫= g = l ≫= (λ x, f x ≫= g).
Proof.
  induction l as [|x l IH]; [done|]. by rewrite !bind_cons, bind_app, IH.
Qed.

(** A loop whose body never raises collects what its body yields. *)
Lemma mapM_concat {A B} (f : A → option (list B)) (g : A → list B) (l : list A) :
  (∀ x, x ∈ l → f x = Some (g x)) →
  (xs ← mapM f l; Some (concat xs)) = Some (l ≫= g).
Proof.
  intros Hf. assert (mapM f l = Some (g <$> l)) as ->.
  { apply mapM_Some, Forall2_fmap_r, Forall_Forall2_diag, Forall_forall.
    exact Hf. }
  simpl. f_equal. induction l as [|x l IH]; [done|].
  rewrite fmap_cons, bind_cons. simpl. f_equal. apply IH.
  intros y Hy. apply Hf. by right.
Qed.

Lemma Forall2_bind_singleton {A B} (R : A → B → Prop) (h : A → list B) (l : list A) :
  (∀ x, x ∈ l → ∃ y, h x = [y] ∧ R x y) → Forall2 R l (l ≫= h).
Proof.
  induction l as [|x l IH]; intros Hh; [constructor|].
  rewrite bind_cons. destruct (Hh x) as (y & -> & Hy); [by left|].
  constructor; [done|]. apply IH. intros z Hz. apply Hh. by right.
Qed.

Lemma length_substring (n : nat) (s : string) :
  String.length (String.substring 0 n s) = (n `min` String.length s)%nat.
Proof.
  revert s. induction n as [|n IH]; intros [|c s]; simpl; try done.
  by rewrite IH.
Qed.

Lemma abbreviate_length (holiday_name : string) : len (abbreviate holiday_name) ≤ 15.
Proof.
  unfold abbreviate, len. destruct (15 <? _) eqn:Hlong.
  - apply Z.ltb_lt in Hlong. rewrite length_append, length_substring.
    change (String.length "...") with 3%nat. lia.
  - apply Z.ltb_ge in Hlong. done.
Qed.

Section cells.
Variables (year : Z) (holidays : gmap date string) (month_num : Z).
Hypothesis Hyear : MINYEAR ≤ year ≤ MAXYEAR.
Hypothesis Hmonth : 1 ≤ month_num ≤ 12.

Lemma draw_cell_day (week_num day_num : nat) (day : Z) :
  1 ≤ day ≤ days_in_month year month_num →
  ∃ c, draw_cell year holidays month_num week_num day_num day = Some [c]
    ∧ cell_week c = week_num ∧ cell_column c = day_num ∧ cell_day c = day
    ∧ shown_as holidays (Date year month_num day) c.
Proof.
  intros Hday. unfold draw_cell, shown_as.
  rewrite bool_decide_eq_false_2 by lia.
  rewrite date_of_valid by done. simpl.
  destruct (holidays !! Date year month_num day) as [holiday_name|] eqn:Hh.
  - rewrite bool_decide_eq_true_2 by done. simpl. eauto 10.
  - rewrite bool_decide_eq_false_2 by (by intros [? ?]).
    destruct (is_weekend (Date year month_num day)); simpl; eauto 10.
Qed.

Lemma draw_cell_padding (week_num day_num : nat) :
  draw_cell year holidays month_num week_num day_num 0 = Some [].
Proof. done. Qed.

Lemma monthcalendar_days week_num week day_num day :
  monthcalendar year month_num !! week_num = Some week →
  week !! day_num = Some day →
  day = 0 ∨ 1 ≤ day ≤ days_in_month year month_num.
Proof.
  intros Hweek Hday.
  assert (day ∈ itermonthdays year month_num) as Hin.
  { rewrite <- monthcalendar_concat. apply list_elem_of_In, in_concat.
    exists week. split; apply list_elem_of_In; by eapply list_elem_of_lookup_2. }
  unfold itermonthdays in Hin. rewrite <- (monthrange_days year month_num) by done.
  destruct (monthrange year month_num) as [day1 ndays]; simpl.
  rewrite !elem_of_app, elem_of_range in Hin.
  destruct Hin as [Hin|[Hin|Hin]]; [left|right; lia|left];
    by apply elem_of_replicate in Hin as [? _].
Qed.

Lemma month_cells_grid :
  month_cells year holidays month_num
  = Some ('(week_num, day_num, day) ← grid_days (monthcalendar year month_num);
          default [] (draw_cell year holidays month_num week_num day_num day)).
Proof.
  unfold month_cells, grid_days.
  rewrite (mapM_concat _
    (λ '(week_num, week),
       '(day_num, day) ← enumerate week;
       default [] (draw_cell year holidays month_num week_num day_num day))).
  - f_equal. rewrite bind_bind. apply list_bind_ext; [|done].
    intros [week_num week]. rewrite bind_bind. apply list_bind_ext; [|done].
    intros [day_num day]. case_bool_decide as Hzero.
    + by rewrite Hzero.
    + simpl. by rewrite app_nil_r.
  - intros [week_num week] (? & ? & [= <- <-] & Hweek)%elem_of_lookup_imap.
    apply mapM_concat.
    intros [day_num day] (? & ? & [= <- <-] & Hday)%elem_of_lookup_imap.
    destruct (monthcalendar_days _ _ _ _ Hweek Hday) as [->|Hin]; [done|].
    by destruct (draw_cell_day week_num day_num day Hin) as (c & -> & _).
Qed.

End cells.

(** X16: the calendar grid of a month page. For every year from 1 to
    9999, every month and every holiday table, the loop that draws the
    grid raises nothing and draws one cell per day of the month, from the
    1st to the last. The cell of a day stands in the column of its weekday
    (Monday first, as the header row) and in the row of its week; it is
    filled and labelled as a holiday if the table has its date (a holiday
    on a weekend shows as a holiday), else as Sat or Sun on a weekend,
    else plainly; and no label is longer than 15 characters. *)
Theorem month_cells_calendar (year : Z) (holidays : gmap date string) (month_num : Z) :
  MINYEAR ≤ year ≤ MAXYEAR → 1 ≤ month_num ≤ 12 →
  ∃ cells : list cell,
    month_cells year holidays month_num = Some cells
    ∧ Forall2 (λ day c,
         let d := Date year month_num day in
         cell_day c = day
         ∧ Z.of_nat (cell_column c) = weekday d
         ∧ Z.of_nat (cell_week c)
           = (weekday (Date year month_num 1) + day - 1) `div` 7
         ∧ shown_as holidays d c
         ∧ ∀ label, cell_label c = Some label → len label ≤ 15)
        (range 1 (days_in_month year month_num + 1)) cells.
Proof.
  intros Hyear Hmonth. eexists. split; [by apply month_cells_grid|].
  rewrite monthcalendar_grid, monthrange_days by done.
  assert ((monthrange year month_num).1 = weekday (Date year month_num 1)) as ->.
  { unfold monthrange, cal_weekday, weekday, toordinal; simpl.
    unfold MINYEAR, MAXYEAR in *.
    by rewrite (proj2 (Z.leb_le 1 year)), (proj2 (Z.leb_le year 9999)) by lia. }
  pose proof (mod7_bounds (toordinal (Date year month_num 1) + 6)) as Hw.
  fold (weekday (Date year month_num 1)) in Hw.
  pose proof (days_in_month_ge year month_num Hmonth) as Hn.
  rewrite month_grid_positions by lia.
  rewrite list_fmap_bind. apply Forall2_bind_singleton.
  intros day Hday%elem_of_range; simpl.
  set (w := weekday (Date year month_num 1)) in *.
  destruct (draw_cell_day year holidays month_num Hyear Hmonth
              (Z.to_nat ((w + day - 1) `div` 7)) (Z.to_nat ((w + day - 1) `mod` 7))
              day ltac:(lia)) as (c & -> & Hweek & Hcol & Hcday & Hshown).
  exists c. split; [done|]. split_and!; try done.
  - rewrite Hcol. replace day with (1 + (day - 1)) at 2 by lia.
    rewrite weekday_shift. fold w.
    pose proof (mod7_bounds (w + day - 1)).
    rewrite Z2Nat.id by lia. f_equal. lia.
  - rewrite Hweek. rewrite Z2Nat.id; [done|]. apply Z.div_pos; lia.
  - intros label Hlabel. unfold shown_as in Hshown.
    destruct (holidays !! Date year month_num day) as [holiday_name|].
    + destruct Hshown as [_ Hl]. rewrite Hl in Hlabel. injection Hlabel as <-.
      apply abbreviate_length.
    + destruct (is_weekend (Date year month_num day)); destruct Hshown as [_ Hl];
        rewrite Hl in Hlabel; [|done].
      injection Hlabel as <-. by case_bool_decide.
Qed.

Lemma month_cells_calendar_witness :
  MINYEAR ≤ 2024 ≤ MAXYEAR ∧ 1 ≤ 2 ≤ 12
  ∧ ∃ cells : list cell,
      month_cells 2024 ∅ 2 = Some cells
      ∧ cell_day <$> cells = range 1 30
      ∧ (Z.of_nat ∘ cell_column) <$> take 4 cells = [3; 4; 5; 6].
Proof.
  assert (MINYEAR ≤ 2024 ≤ MAXYEAR) as Hy by (unfold MINYEAR, MAXYEAR; lia).
  assert (1 ≤ 2 ≤ 12) as Hm by lia.
  split; [exact Hy|]. split; [exact Hm|].
  destruct (month_cells_calendar 2024 ∅ 2 Hy Hm) as (cells & Hcells & _).
  exists cells. split; [exact Hcells|].
  vm_compute in Hcells. injection Hcells as <-. split; reflexivity.
Defined.

(** ** Anchor names *)

Section anchor_names.
Local Arguments String.append : simpl nomatch.

Lemma str_inj (a b : Z) : str a = str b → a = b.
Proof.
  assert (∀ z, Z.to_int z ≠ Decimal.Pos Decimal.Nil
             ∧ Z.to_int z ≠ Decimal.Neg Decimal.Nil) as Hnil.
  { intros z. split; intros Hz; pose proof (f_equal Z.of_int Hz) as Hz';
      rewrite DecimalZ.of_to in Hz'; subst z; by vm_compute in Hz. }
  unfold str. intros Heq. apply DecimalZ.to_int_inj.
  pose proof (NilZero.isi (Z.to_int a) (proj1 (Hnil a)) (proj2 (Hnil a))) as Ha.
  pose proof (NilZero.isi (Z.to_int b) (proj1 (Hnil b)) (proj2 (Hnil b))) as Hb.
  rewrite Heq, Hb in Ha. by injection Ha.
Qed.

Lemma numeral_string_of_uint d : numeral (NilEmpty.string_of_uint d).
Proof. induction d; simpl; [done|split; [discriminate|assumption]..]. Qed.

Lemma numeral_str (n : Z) : numeral (str n).
Proof.
  unfold str, NilZero.string_of_int, NilZero.string_of_uint.
  destruct (Z.to_int n) as [d|d]; [|split; [discriminate|]];
    (destruct d; [by split|apply (numeral_string_of_uint (_ _))..]).
Qed.

(** Two numerals followed by an underscore and more text: the same text
    is cut at the same place. *)
Lemma numeral_cut (s s' t t' : string) :
  numeral s → numeral s' →
  s +:+ "_" +:+ t = s' +:+ "_" +:+ t' → s = s' ∧ t = t'.
Proof.
  revert s'. induction s as [|c s IH]; intros [|c' s']; simpl.
  - by intros _ _ [= ->].
  - intros _ [Hc _] [= <- _]. done.
  - intros [Hc _] _ [= -> _]. done.
  - intros [_ Hs] [_ Hs'] [= -> Heq].
    destruct (IH s' Hs Hs' Heq) as [-> ->]. done.
Qed.

(** X17: anchor names never collide. For all integers, two month anchors
    are equal only for the same month, two day anchors only for the same
    month and the same day, and a month anchor is never a day anchor. *)
Theorem anchor_names_injective (m m' d d' : Z) :
  (month_anchor m = month_anchor m' ↔ m = m')
  ∧ (day_anchor m d = day_anchor m' d' ↔ m = m' ∧ d = d')
  ∧ month_anchor m ≠ day_anchor m' d'.
Proof.
  unfold month_anchor, day_anchor. split_and!.
  - split; [|by intros ->]. by intros ?%append_inj_l%str_inj.
  - split; [|by intros [-> ->]].
    intros Heq%append_inj_l.
    apply numeral_cut in Heq as [?%str_inj ?%str_inj]; auto using numeral_str.
  - discriminate.
Qed.

End anchor_names.

(** ** The personal information pages *)

Section personal_info.
Local Arguments String.append : simpl nomatch.


End personal_info.

(** ** Instances *)

Lemma season_lookups_never_miss_witness :
  ¬ 1 ≤ 13 ≤ 12 ∧ get_season 13 = "autumn".
Proof.
  assert (¬ 1 ≤ 13 ≤ 12) as Hout by lia.
  split; [exact Hout|].
  destruct (season_lookups_never_miss 13) as (_ & Hautumn & _).
  exact (Hautumn Hout).
Defined.

Lemma strong_password_iff_witness :
  (validate_password_strength "Hello1!x").2 = []
  ∧ (validate_password_strength "Hello1!x").1 = true.
Proof.
  assert ((validate_password_strength "Hello1!x").2 = []) as Hquiet by reflexivity.
  split; [exact Hquiet|].
  destruct (strong_password_iff "Hello1!x") as (_ & _ & Hstrong).
  exact (Hstrong Hquiet).
Defined.

